(** * nightofnights: key pool, Anthropic router and SSE transformer

    A shallow embedding of the credential pool ([KeyPool],
    [GoogleAIKeyProvider]), of the Anthropic router with its response
    handler, and of the streaming transformer [openAITextToOpenAIChat],
    followed by the properties the specification states about them.

    Conventions.
    - Timestamps and counters are JavaScript numbers holding integers well
      below 2^53; they are modelled by [Z].
    - A JavaScript string is modelled by [string], one character per code
      unit, for code units up to U+00FF.
    - A function that may throw returns a [result]; [Date.now()] is an
      explicit argument, one per call the source makes. *)

From Stdlib Require Import ZArith Ascii.
From stdpp Require Import base option list strings pretty.

Local Open Scope Z_scope.
Set Warnings "-register-all".

(** ** The JavaScript runtime, as far as the sources use it *)

Module JS.

(** Exceptions the sources throw or provoke. *)
Inductive error : Type :=
| Error (message : string)
| TypeError (message : string)
| SyntaxError (message : string)
| PaymentRequiredError (message : string).

Inductive result (A : Type) : Type :=
| Ok (a : A)
| Throw (e : error).
Global Arguments Ok {A} a.
Global Arguments Throw {A} e.

Global Instance result_ret : MRet result := λ A a, Ok a.
Global Instance result_bind : MBind result := λ A B f m,
  match m with Ok a => f a | Throw e => Throw e end.
Global Instance result_fmap : FMap result := λ A B f m,
  match m with Ok a => Ok (f a) | Throw e => Throw e end.

(** [try { body } catch (e) { handler e }] *)
Definition try_catch {A} (body : result A) (handler : error → result A)
  : result A :=
  match body with Ok a => Ok a | Throw e => handler e end.

(** White space and line terminators removed by [String.prototype.trim],
    among the code units up to U+00FF. *)
Definition isWhiteSpace (c : ascii) : bool :=
  let n := nat_of_ascii c in
  ((9 <=? n) && (n <=? 13) || (n =? 32) || (n =? 160))%nat.

Fixpoint trimStart (s : string) : string :=
  match s with
  | String c s' => if isWhiteSpace c then trimStart s' else s
  | EmptyString => EmptyString
  end.

Definition trimEnd (s : string) : string :=
  String.rev (trimStart (String.rev s)).

Definition trim (s : string) : string := trimEnd (trimStart s).

Definition startsWith (s searchString : string) : bool :=
  String.prefix searchString s.

(** [s.split(sep)] for a separator of one character. *)
Fixpoint split (sep : ascii) (s : string) : list string :=
  match s with
  | EmptyString => [EmptyString]
  | String c s' =>
      if decide (c = sep) then EmptyString :: split sep s'
      else match split sep s' with
           | w :: ws => String c w :: ws
           | [] => [String c EmptyString]
           end
  end.

(** [[...new Set(l)]]: the distinct elements in order of first
    occurrence. *)
Fixpoint dedupe_go (seen l : list string) : list string :=
  match l with
  | [] => []
  | x :: l' =>
      if decide (x ∈ seen) then dedupe_go seen l'
      else x :: dedupe_go (x :: seen) l'
  end.
Definition dedupe : list string → list string := dedupe_go [].

(** [Array.prototype.sort(compareFn)].  The sort is stable (ECMAScript
    2019) and every comparator of the sources is a consistent one, so its
    result is the one of any stable sort; this is insertion from the
    right, where an element goes before the elements it does not exceed. *)
Section Sort.
Context {A : Type} (compareFn : A → A → Z).

Fixpoint insert_sorted (x : A) (l : list A) : list A :=
  match l with
  | [] => [x]
  | y :: l' =>
      if compareFn x y <=? 0 then x :: y :: l'
      else y :: insert_sorted x l'
  end.

Definition sort (l : list A) : list A := foldr insert_sorted [] l.
End Sort.

(** JavaScript values as [JSON.parse] builds them and as the handlers
    pass them on ([any]).  An object is the list of its own properties. *)
Inductive value : Type :=
| VUndefined
| VNull
| VBool (b : bool)
| VNumber (n : Z)
| VString (s : string)
| VArray (elements : list value)
| VObject (props : list (string * value)).

(** [Record<string, any>] *)
Definition record : Type := list (string * value).

(** ToBoolean *)
Definition truthy (v : value) : bool :=
  match v with
  | VUndefined | VNull => false
  | VBool b => b
  | VNumber n => negb (n =? 0)
  | VString s => negb (bool_decide (s = EmptyString))
  | VArray _ | VObject _ => true
  end.

(** [o[name]] for an object [o]; a missing property reads [undefined].
    None of the names the sources read is inherited from a prototype. *)
Fixpoint lookup_prop (name : string) (o : record) : value :=
  match o with
  | [] => VUndefined
  | (n, v) :: o' => if decide (n = name) then v else lookup_prop name o'
  end.

(** [o[name] = v] for an object [o] *)
Fixpoint assign_prop (name : string) (v : value) (o : record) : record :=
  match o with
  | [] => [(name, v)]
  | (n, w) :: o' =>
      if decide (n = name) then (n, v) :: o'
      else (n, w) :: assign_prop name v o'
  end.

(** [v.name] for the property names the sources read *)
Definition getProp (v : value) (name : string) : result value :=
  match v with
  | VUndefined | VNull =>
      Throw (TypeError ("Cannot read properties of undefined (reading '"
                          +:+ name +:+ "')"))
  | VObject o => Ok (lookup_prop name o)
  | VArray l =>
      Ok (if decide (name = "length") then VNumber (Z.of_nat (length l))
          else VUndefined)
  | VString s =>
      Ok (if decide (name = "length")
          then VNumber (Z.of_nat (String.length s))
          else VUndefined)
  | VBool _ | VNumber _ => Ok VUndefined
  end.

(** [v[i]] for an index [i] *)
Definition getIndex (v : value) (i : nat) : result value :=
  match v with
  | VUndefined | VNull =>
      Throw (TypeError ("Cannot read properties of undefined (reading '"
                          +:+ pretty i +:+ "')"))
  | VObject o => Ok (lookup_prop (pretty i) o)
  | VArray l => Ok (default VUndefined (l !! i))
  | VString s =>
      Ok (match String.get i s with
          | Some c => VString (String c EmptyString)
          | None => VUndefined
          end)
  | VBool _ | VNumber _ => Ok VUndefined
  end.

Definition isArray (v : value) : bool :=
  match v with VArray _ => true | _ => false end.

(** ToString, as string concatenation and [join] apply it *)
Fixpoint toString (v : value) : string :=
  let fix joinWith (sep : string) (l : list value) : string :=
    match l with
    | [] => EmptyString
    | x :: l' =>
        let sx := match x with
                  | VUndefined | VNull => EmptyString
                  | _ => toString x
                  end in
        match l' with
        | [] => sx
        | _ :: _ => sx +:+ sep +:+ joinWith sep l'
        end
    end in
  match v with
  | VUndefined => "undefined"
  | VNull => "null"
  | VBool true => "true"
  | VBool false => "false"
  | VNumber n => pretty n
  | VString s => s
  | VArray l => joinWith "," l
  | VObject _ => "[object Object]"
  end.

(** [l.join(sep)] *)
Fixpoint join (sep : string) (l : list value) : string :=
  match l with
  | [] => EmptyString
  | x :: l' =>
      let sx := match x with
                | VUndefined | VNull => EmptyString
                | _ => toString x
                end in
      match l' with
      | [] => sx
      | _ :: _ => sx +:+ sep +:+ join sep l'
      end
  end.

(** [v === s] for a string [s] *)
Definition is_string (s : string) (v : value) : bool :=
  match v with VString s' => bool_decide (s' = s) | _ => false end.

(** A number or [undefined] as a value *)
Definition of_number (n : option Z) : value :=
  match n with Some z => VNumber z | None => VUndefined end.

End JS.
Export JS.

(** ** Key records and the Google AI key provider *)

Inductive AIService : Type := openai | anthropic | google_ai.

Global Instance AIService_eq_dec : EqDecision AIService.
Proof. solve_decision. Defined.

Inductive GoogleAIModelFamily : Type :=
| gemini_flash | gemini_pro | gemini_ultra.

Global Instance GoogleAIModelFamily_eq_dec : EqDecision GoogleAIModelFamily.
Proof. solve_decision. Defined.

(** What the provider imports from [shared/models] and from [crypto]; both
    are outside the sources at hand and stay abstract. *)
Class Models : Type :=
  { getGoogleAIModelFamily : string → GoogleAIModelFamily }.

Class Crypto : Type :=
  { (** [crypto.createHash("sha256").update(key).digest("hex")] *)
    sha256_hex : string → string }.

Module GoogleAIKeyProvider.

Record GoogleAIKey : Type := mkKey
  { key : string;
    service : AIService;
    modelFamilies : list GoogleAIModelFamily;
    isDisabled : bool;
    isRevoked : bool;
    promptCount : Z;
    lastUsed : Z;
    rateLimitedAt : Z;
    rateLimitedUntil : Z;
    hash : string;
    lastChecked : Z;
    gemini_flashTokens : Z;
    gemini_proTokens : Z;
    gemini_ultraTokens : Z;
    modelIds : list string }.

(** [Partial<GoogleAIKey>]: every field may be present or absent. *)
Record PartialGoogleAIKey : Type := mkPartial
  { p_key : option string;
    p_service : option AIService;
    p_modelFamilies : option (list GoogleAIModelFamily);
    p_isDisabled : option bool;
    p_isRevoked : option bool;
    p_promptCount : option Z;
    p_lastUsed : option Z;
    p_rateLimitedAt : option Z;
    p_rateLimitedUntil : option Z;
    p_hash : option string;
    p_lastChecked : option Z;
    p_gemini_flashTokens : option Z;
    p_gemini_proTokens : option Z;
    p_gemini_ultraTokens : option Z;
    p_modelIds : option (list string) }.

Definition emptyPatch : PartialGoogleAIKey :=
  mkPartial None None None None None None None None None None None None
            None None None.

Definition RATE_LIMIT_LOCKOUT : Z := 2000.
Definition KEY_REUSE_DELAY : Z := 500.

(** Assignments to single fields of a key record. *)
Definition set_lastUsed (v : Z) (k : GoogleAIKey) : GoogleAIKey :=
  mkKey (key k) (service k) (modelFamilies k) (isDisabled k) (isRevoked k)
        (promptCount k) v (rateLimitedAt k) (rateLimitedUntil k)
        (hash k) (lastChecked k) (gemini_flashTokens k)
        (gemini_proTokens k) (gemini_ultraTokens k) (modelIds k).

Definition set_rateLimit (at_ until : Z) (k : GoogleAIKey) : GoogleAIKey :=
  mkKey (key k) (service k) (modelFamilies k) (isDisabled k) (isRevoked k)
        (promptCount k) (lastUsed k) at_ until
        (hash k) (lastChecked k) (gemini_flashTokens k)
        (gemini_proTokens k) (gemini_ultraTokens k) (modelIds k).

Definition set_isDisabled (v : bool) (k : GoogleAIKey) : GoogleAIKey :=
  mkKey (key k) (service k) (modelFamilies k) v (isRevoked k)
        (promptCount k) (lastUsed k) (rateLimitedAt k)
        (rateLimitedUntil k) (hash k) (lastChecked k)
        (gemini_flashTokens k) (gemini_proTokens k)
        (gemini_ultraTokens k) (modelIds k).

Definition set_promptCount (v : Z) (k : GoogleAIKey) : GoogleAIKey :=
  mkKey (key k) (service k) (modelFamilies k) (isDisabled k) (isRevoked k)
        v (lastUsed k) (rateLimitedAt k) (rateLimitedUntil k)
        (hash k) (lastChecked k) (gemini_flashTokens k)
        (gemini_proTokens k) (gemini_ultraTokens k) (modelIds k).

(** [key[`${family}Tokens`] += tokens] *)
Definition add_tokens (family : GoogleAIModelFamily) (tokens : Z)
    (k : GoogleAIKey) : GoogleAIKey :=
  let add f := if decide (f = family) then tokens else 0 in
  mkKey (key k) (service k) (modelFamilies k) (isDisabled k) (isRevoked k)
        (promptCount k) (lastUsed k) (rateLimitedAt k)
        (rateLimitedUntil k) (hash k) (lastChecked k)
        (gemini_flashTokens k + add gemini_flash)
        (gemini_proTokens k + add gemini_pro)
        (gemini_ultraTokens k + add gemini_ultra) (modelIds k).

(** [Object.assign(k, patch)] *)
Definition assign (patch : PartialGoogleAIKey) (k : GoogleAIKey)
  : GoogleAIKey :=
  mkKey (default (key k) (p_key patch))
        (default (service k) (p_service patch))
        (default (modelFamilies k) (p_modelFamilies patch))
        (default (isDisabled k) (p_isDisabled patch))
        (default (isRevoked k) (p_isRevoked patch))
        (default (promptCount k) (p_promptCount patch))
        (default (lastUsed k) (p_lastUsed patch))
        (default (rateLimitedAt k) (p_rateLimitedAt patch))
        (default (rateLimitedUntil k) (p_rateLimitedUntil patch))
        (default (hash k) (p_hash patch))
        (default (lastChecked k) (p_lastChecked patch))
        (default (gemini_flashTokens k) (p_gemini_flashTokens patch))
        (default (gemini_proTokens k) (p_gemini_proTokens patch))
        (default (gemini_ultraTokens k) (p_gemini_ultraTokens patch))
        (default (modelIds k) (p_modelIds patch)).

(** [{ lastChecked: now, ...update }] *)
Definition with_lastChecked (now : Z) (update : PartialGoogleAIKey)
  : PartialGoogleAIKey :=
  mkPartial (p_key update) (p_service update) (p_modelFamilies update)
            (p_isDisabled update) (p_isRevoked update)
            (p_promptCount update) (p_lastUsed update)
            (p_rateLimitedAt update) (p_rateLimitedUntil update)
            (p_hash update)
            (Some (default now (p_lastChecked update)))
            (p_gemini_flashTokens update) (p_gemini_proTokens update)
            (p_gemini_ultraTokens update) (p_modelIds update).

(** The provider's state is its array [this.keys].  A key object is
    identified by its position in the array: [filter] and [sort] move
    references around, and a write through a reference is a write at
    that position. *)
Abbreviation keys_t := (list GoogleAIKey).

(** [this.keys.find((k) => k.hash === h)], with the position found. *)
Definition find_hash (h : string) (keys : keys_t)
  : option (nat * GoogleAIKey) :=
  list_find (λ k, hash k = h) keys.

Section WithImports.
Context `{Models} `{Crypto}.

(** The record the constructor builds for one secret. *)
Definition newKey (secret : string) : GoogleAIKey :=
  {| key := secret;
     service := google_ai;
     modelFamilies := [gemini_pro];
     isDisabled := false;
     isRevoked := false;
     promptCount := 0;
     lastUsed := 0;
     rateLimitedAt := 0;
     rateLimitedUntil := 0;
     hash := "plm-" +:+ String.substring 0 8 (sha256_hex secret);
     lastChecked := 0;
     gemini_flashTokens := 0;
     gemini_proTokens := 0;
     gemini_ultraTokens := 0;
     modelIds := [] |}.

(** [constructor()], reading [config.googleAIKey]. *)
Definition constructor (googleAIKey : option string) : keys_t :=
  match trim <$> googleAIKey with
  | None | Some EmptyString => []
  | Some keyConfig =>
      let bareKeys := dedupe (trim <$> split ","%char keyConfig) in
      newKey <$> bareKeys
  end.

Definition eligible (neededFamily : GoogleAIModelFamily)
    (k : GoogleAIKey) : Prop :=
  isDisabled k = false ∧ neededFamily ∈ modelFamilies k.

Global Instance eligible_dec f k : Decision (eligible f k).
Proof. unfold eligible. apply _. Defined.

(** The comparator handed to [sort] in [get]. *)
Definition compareKeys (now : Z) (a b : GoogleAIKey) : Z :=
  let aRateLimited := bool_decide (now - rateLimitedAt a < RATE_LIMIT_LOCKOUT) in
  let bRateLimited := bool_decide (now - rateLimitedAt b < RATE_LIMIT_LOCKOUT) in
  if aRateLimited && negb bRateLimited then 1
  else if negb aRateLimited && bRateLimited then -1
  else if aRateLimited && bRateLimited
       then rateLimitedAt a - rateLimitedAt b
  else lastUsed a - lastUsed b.

(** [throttle(hash)]; [now] is its own reading of the clock. *)
Definition throttle (h : string) (now : Z) (keys : keys_t)
  : result keys_t :=
  match find_hash h keys with
  | None =>
      Throw (TypeError "Cannot read properties of undefined (reading 'rateLimitedUntil')")
  | Some (j, k) =>
      let currentRateLimit := rateLimitedUntil k in
      let nextRateLimit := now + KEY_REUSE_DELAY in
      Ok (alter (set_rateLimit now (currentRateLimit `max` nextRateLimit))
                j keys)
  end.

(** [get(model)].  [now] is the reading of the clock in [get],
    [now'] the one in [throttle].  The result is the copy
    [{ ...selectedKey }] and the array after the call. *)
Definition get (model : string) (now now' : Z) (keys : keys_t)
  : result (GoogleAIKey * keys_t) :=
  let neededFamily := getGoogleAIModelFamily model in
  let availableKeys :=
    filter (λ ik, eligible neededFamily ik.2) (imap pair keys) in
  match availableKeys with
  | [] => Throw (PaymentRequiredError "No Google AI keys available")
  | _ :: _ =>
      let keysByPriority :=
        sort (λ a b, compareKeys now a.2 b.2) availableKeys in
      match keysByPriority with
      | [] => Throw (TypeError "Cannot set properties of undefined (setting 'lastUsed')")
      | (i, selectedKey) :: _ =>
          let keys1 := alter (set_lastUsed now) i keys in
          keys2 ← throttle (hash selectedKey) now' keys1;
          match keys2 !! i with
          | Some selected => Ok (selected, keys2)
          | None => Throw (TypeError "selectedKey is not an object")
          end
      end
  end.

(** [disable(key)] *)
Definition disable (k : GoogleAIKey) (keys : keys_t) : keys_t :=
  match find_hash (hash k) keys with
  | None => keys
  | Some (j, keyFromPool) =>
      if isDisabled keyFromPool then keys
      else alter (set_isDisabled true) j keys
  end.

(** [update(hash, update)] *)
Definition update (h : string) (patch : PartialGoogleAIKey) (now : Z)
    (keys : keys_t) : result keys_t :=
  match find_hash h keys with
  | None => Throw (TypeError "Cannot convert undefined or null to object")
  | Some (j, _) => Ok (alter (assign (with_lastChecked now patch)) j keys)
  end.

(** [available()] *)
Definition available (keys : keys_t) : Z :=
  Z.of_nat (length (filter (λ k, isDisabled k = false) keys)).

(** [incrementUsage(hash, model, tokens)] *)
Definition incrementUsage (h model : string) (tokens : Z)
    (keys : keys_t) : keys_t :=
  match find_hash h keys with
  | None => keys
  | Some (j, _) =>
      alter (λ k, add_tokens (getGoogleAIModelFamily model) tokens
                    (set_promptCount (promptCount k + 1) k)) j keys
  end.

(** [getLockoutPeriod()]: the method has no parameter.  [Math.min] is
    applied to the non-empty list of the active keys' waits. *)
Definition getLockoutPeriod (now : Z) (keys : keys_t) : Z :=
  let activeKeys := filter (λ k, isDisabled k = false) keys in
  match activeKeys with
  | [] => 0
  | k0 :: rest =>
      let rateLimitedKeys :=
        filter (λ k, now < rateLimitedUntil k) activeKeys in
      let anyNotRateLimited :=
        bool_decide (length rateLimitedKeys < length activeKeys)%nat in
      if anyNotRateLimited then 0
      else foldr Z.min (rateLimitedUntil k0 - now)
                 ((λ k, rateLimitedUntil k - now) <$> rest)
  end.

(** [markRateLimited(keyHash)] *)
Definition markRateLimited (keyHash : string) (now : Z) (keys : keys_t)
  : result keys_t :=
  match find_hash keyHash keys with
  | None =>
      Throw (TypeError "Cannot set properties of undefined (setting 'rateLimitedAt')")
  | Some (j, _) =>
      Ok (alter (set_rateLimit now (now + RATE_LIMIT_LOCKOUT)) j keys)
  end.

End WithImports.

End GoogleAIKeyProvider.

(** ** The key pool *)

Module KeyPool.

Section WithKey.
Context {Key : Type}.

(** [interface KeyProvider], as far as [KeyPool.get] uses it.  The
    provider's own state stays behind [get]. *)
Record KeyProvider : Type :=
  { KeyProvider_service : AIService;
    KeyProvider_get : string → result Key }.

(** Modelled from the spec: the classes [OpenAIKeyProvider] and
    [AnthropicKeyProvider] are not among the sources at hand.  Each is
    the provider of the service it is named after (one provider per
    supported service); how it selects a key is left open. *)
Definition OpenAIKeyProvider (select : string → result Key)
  : KeyProvider :=
  {| KeyProvider_service := openai; KeyProvider_get := select |}.
Definition AnthropicKeyProvider (select : string → result Key)
  : KeyProvider :=
  {| KeyProvider_service := anthropic; KeyProvider_get := select |}.

(** [constructor()] *)
Definition constructor (openaiSelect anthropicSelect : string → result Key)
  : list KeyProvider :=
  [] ++ [OpenAIKeyProvider openaiSelect]
     ++ [AnthropicKeyProvider anthropicSelect].

(** [getService(model)] *)
Definition getService (model : string) : result AIService :=
  if startsWith model "gpt" then Ok openai
  else if startsWith model "claude-" then Ok anthropic
  else Throw (Error ("Unknown service for model " +:+ model)).

(** [getKeyProvider(service)]; [None] is [undefined]. *)
Definition getKeyProvider (keyProviders : list KeyProvider)
    (s : AIService) : option KeyProvider :=
  snd <$> list_find (λ provider, KeyProvider_service provider = s) keyProviders.

(** [get(model)] *)
Definition get (keyProviders : list KeyProvider) (model : string)
  : result Key :=
  s ← getService model;
  match getKeyProvider keyProviders s with
  | Some provider => KeyProvider_get provider model
  | None =>
      Throw (TypeError "Cannot read properties of undefined (reading 'get')")
  end.
End WithKey.
Global Arguments KeyProvider : clear implicits.

End KeyPool.

(** ** The Anthropic router *)

Inductive APIFormat : Type :=
| api_openai
| api_openai_text
| api_openai_image
| api_anthropic_text
| api_anthropic_chat
| api_google_ai.

Global Instance APIFormat_eq_dec : EqDecision APIFormat.
Proof. solve_decision. Defined.

(** The request context, as far as the router and its handlers read and
    write it.  [body] is the JSON object the body parser produced. *)
Record Request : Type := mkRequest
  { url : string;
    body : record;
    inboundApi : option APIFormat;
    outboundApi : option APIFormat;
    service : option AIService;
    promptTokens : option Z;
    outputTokens : option Z;
    tokenizerInfo : value;
    host : option string }.

(** What the router imports from [proxy/middleware/request]: the dialect
    translation of a body, which validates and may reject it, and the
    token estimate.  Both are outside the sources at hand. *)
Class Dialects : Type :=
  { transformOutboundPayload : APIFormat → APIFormat → record → result record;
    countPromptTokens : AIService → record → Z }.

Record Config : Type :=
  { promptLogging : bool;
    anthropicKey : option string }.

Module AnthropicProxy.

Definition set_url (u : string) (req : Request) : Request :=
  mkRequest u (body req) (inboundApi req) (outboundApi req) (service req)
            (promptTokens req) (outputTokens req) (tokenizerInfo req)
            (host req).

Definition set_body (b : record) (req : Request) : Request :=
  mkRequest (url req) b (inboundApi req) (outboundApi req) (service req)
            (promptTokens req) (outputTokens req) (tokenizerInfo req)
            (host req).

Definition set_apiFormat (inApi outApi : APIFormat) (s : AIService)
    (req : Request) : Request :=
  mkRequest (url req) (body req) (Some inApi) (Some outApi) (Some s)
            (promptTokens req) (outputTokens req) (tokenizerInfo req)
            (host req).

Definition set_promptTokens (n : Z) (req : Request) : Request :=
  mkRequest (url req) (body req) (inboundApi req) (outboundApi req)
            (service req) (Some n) (outputTokens req) (tokenizerInfo req)
            (host req).

(** A middleware either passes the request on or ends it with an error. *)
Definition RequestPreprocessor : Type := Request → result Request.

Definition runAll (ps : list RequestPreprocessor) (req : Request)
  : result Request :=
  foldl (λ acc p, acc ≫= p) (Ok req) ps.

(** [transformAnthropicChatResponseToAnthropicText] *)
Definition transformAnthropicChatResponseToAnthropicText
    (anthropicBody : record) (req : Request) : result record :=
  match lookup_prop "content" anthropicBody with
  | VArray content =>
      parts ← mapM (λ part,
                 ty ← getProp part "type";
                 if is_string "text" ty then getProp part "text"
                 else Ok (VString "")) content;
      Ok [ ("type", VString "completion");
           ("id", VString ("trans-" +:+ toString (lookup_prop "id" anthropicBody)));
           ("completion", VString (join "" parts));
           ("stop_reason", lookup_prop "stop_reason" anthropicBody);
           ("stop", lookup_prop "stop_sequence" anthropicBody);
           ("model", lookup_prop "model" anthropicBody);
           ("usage", lookup_prop "usage" anthropicBody) ]
  | VUndefined | VNull =>
      Throw (TypeError "Cannot read properties of undefined (reading 'map')")
  | _ => Throw (TypeError "anthropicBody.content.map is not a function")
  end.

(** [anthropicBody.completion?.trim()] *)
Definition completion_trim (anthropicBody : record) : result value :=
  match lookup_prop "completion" anthropicBody with
  | VUndefined | VNull => Ok VUndefined
  | VString s => Ok (VString (trim s))
  | _ => Throw (TypeError "anthropicBody.completion?.trim is not a function")
  end.

(** [transformAnthropicTextResponseToOpenAI]; [now] is [Date.now()]. *)
Definition transformAnthropicTextResponseToOpenAI
    (anthropicBody : record) (req : Request) (now : Z) : result record :=
  let totalTokens :=
    default 0 (promptTokens req) + default 0 (outputTokens req) in
  content ← completion_trim anthropicBody;
  Ok [ ("id", VString ("ant-" +:+ toString (lookup_prop "log_id" anthropicBody)));
       ("object", VString "chat.completion");
       ("created", VNumber now);
       ("model", lookup_prop "model" anthropicBody);
       ("usage", VObject
          [ ("prompt_tokens", of_number (promptTokens req));
            ("completion_tokens", of_number (outputTokens req));
            ("total_tokens", VNumber totalTokens) ]);
       ("choices", VArray
          [ VObject
              [ ("message", VObject
                   [ ("role", VString "assistant");
                     ("content", content) ]);
                ("finish_reason", lookup_prop "stop_reason" anthropicBody);
                ("index", VNumber 0) ] ]) ].

(** The body a response handler receives: [string | Record<string, any>] *)
Inductive ResponseBody : Type :=
| BodyString (s : string)
| BodyObject (o : record).

(** What [res.status(200).json(body)] sends. *)
Record Response : Type :=
  { status : Z;
    json : record }.

(** [anthropicResponseHandler], only used for non-streaming requests *)
Definition anthropicResponseHandler (config : Config) (req : Request)
    (body : ResponseBody) (now : Z) : result Response :=
  match body with
  | BodyString _ => Throw (Error "Expected body to be an object")
  | BodyObject body =>
      let body :=
        if promptLogging config then
          assign_prop "proxy_note"
            (VString ("Prompts are logged on this proxy instance. See "
                        +:+ default "undefined" (host req)
                        +:+ " for more information.")) body
        else body in
      body ← (if decide (inboundApi req = Some api_openai)
              then transformAnthropicTextResponseToOpenAI body req now
              else Ok body);
      body ← (if decide (inboundApi req = Some api_anthropic_text
                         ∧ outboundApi req = Some api_anthropic_chat)
              then transformAnthropicChatResponseToAnthropicText body req
              else Ok body);
      let body :=
        if truthy (tokenizerInfo req)
        then assign_prop "proxy_tokenizer" (tokenizerInfo req) body
        else body in
      Ok {| status := 200; json := body |}
  end.

(** [pathFilter]: always [true]; what matters is the request it leaves. *)
Definition pathFilter (pathname : string) (req : Request)
  : bool * Request :=
  let isText := bool_decide (outboundApi req = Some api_anthropic_text) in
  let isChat := bool_decide (outboundApi req = Some api_anthropic_chat) in
  let req :=
    if isChat && bool_decide (pathname = "/v1/complete")
    then set_url "/v1/messages" req else req in
  let req :=
    if isText && bool_decide (pathname = "/v1/chat/completions")
    then set_url "/v1/complete" req else req in
  let req :=
    if isChat && bool_decide (pathname = "/v1/claude-3/complete")
    then set_url "/v1/messages" req else req in
  (true, req).

(** [maybeReassignModel] *)
Definition maybeReassignModel : RequestPreprocessor := λ req,
  match lookup_prop "model" (body req) with
  | VString model =>
      if negb (startsWith model "gpt-") then Ok req
      else Ok (set_body (assign_prop "model" (VString "claude-2.1")
                           (body req)) req)
  | VUndefined | VNull =>
      Throw (TypeError "Cannot read properties of undefined (reading 'startsWith')")
  | _ => Throw (TypeError "model.startsWith is not a function")
  end.

Section WithImports.
Context `{Dialects}.

(** Modelled from the spec: [createPreprocessorMiddleware] is not
    among the sources at hand.  It is parameterised by
    [(inApi, outApi, service)], which it records in the request
    context; it estimates the prompt's tokens and translates the body
    from the inbound to the outbound dialect, with the caller's hooks
    run before and after the translation.  A failure ends the request. *)
Definition createPreprocessorMiddleware
    (inApi outApi : APIFormat) (s : AIService)
    (beforeTransform afterTransform : list RequestPreprocessor)
  : RequestPreprocessor := λ req,
  let req := set_apiFormat inApi outApi s req in
  req ← runAll beforeTransform req;
  translated ← transformOutboundPayload inApi outApi (body req);
  let req := set_body translated req in
  let req := set_promptTokens (countPromptTokens s translated) req in
  runAll afterTransform req.

Definition nativeTextPreprocessor : RequestPreprocessor :=
  createPreprocessorMiddleware api_anthropic_text api_anthropic_text
                               anthropic [] [].

Definition textToChatPreprocessor : RequestPreprocessor :=
  createPreprocessorMiddleware api_anthropic_text api_anthropic_chat
                               anthropic [] [].

(** [claudeTextCompletionRouter] *)
Definition claudeTextCompletionRouter : RequestPreprocessor := λ req,
  match lookup_prop "model" (body req) with
  | VString model =>
      if startsWith model "claude-3" then textToChatPreprocessor req
      else nativeTextPreprocessor req
  | VUndefined | VNull => nativeTextPreprocessor req
  | _ =>
      Throw (TypeError "req.body.model?.startsWith is not a function")
  end.

(** Modelled from the spec: [createQueueMiddleware] and
    [createProxyMiddleware] are not among the sources at hand.  Of
    [anthropicProxy] only the path filter is: the proxy hands it the
    path of the request it is about to forward, and forwards the
    request the filter leaves. *)
Definition anthropicProxy (req : Request) : Request :=
  (pathFilter (url req) req).2.

(** The routes of [anthropicRouter], each from its preprocessor on.
    ([ipLimiter] lets a request through as it is, or ends it.) *)
Definition post_v1_complete (req : Request) : result Request :=
  anthropicProxy <$> claudeTextCompletionRouter req.

Definition post_v1_messages (req : Request) : result Request :=
  anthropicProxy <$>
    createPreprocessorMiddleware api_anthropic_chat api_anthropic_chat
                                 anthropic [] [] req.

Definition post_v1_chat_completions (req : Request) : result Request :=
  anthropicProxy <$>
    createPreprocessorMiddleware api_openai api_anthropic_text anthropic
                                 [] [maybeReassignModel] req.

Definition post_v1_claude_3_complete (req : Request) : result Request :=
  anthropicProxy <$>
    createPreprocessorMiddleware api_anthropic_text api_anthropic_chat
      anthropic
      [λ req, Ok (set_body (assign_prop "model"
                              (VString "claude-3-sonnet-20240229")
                              (body req)) req)]
      [] req.
End WithImports.

End AnthropicProxy.

(** ** The streaming transformer from OpenAI text to OpenAI chat *)

(** The event [parseEvent] returns, as far as the transformer reads it;
    [None] is [undefined]. *)
Record SSEMessage : Type :=
  { data : option string }.

(** [parseEvent], from [parse-sse], is outside the sources at hand and
    [JSON.parse] is the platform's; both stay abstract. *)
Class SSEImports : Type :=
  { parseEvent : string → SSEMessage;
    JSON_parse : string → result value }.

Module OpenAITextToOpenAIChat.

(** What a transformer returns: [{ position, event? }] *)
Record SSEResponseTransformResult : Type :=
  { position : Z;
    event : option value }.

Section WithImports.
Context `{SSEImports}.

(** [asCompletionEvent]; [None] is [null]. *)
Definition asCompletionEvent (event : string) : result (option value) :=
  try_catch
    (parsed ← JSON_parse event;
     choices ← getProp parsed "choices";
     if isArray choices then
       first ← getIndex choices 0;
       text ← getProp first "text";
       if truthy text then Ok (Some parsed)
       else Throw (Error "Missing required fields")
     else Throw (Error "Missing required fields"))
    (λ error, Ok None).

(** [completionEvent.choices[0].name] *)
Definition choices0 (completionEvent : value) (name : string)
  : result value :=
  choices ← getProp completionEvent "choices";
  first ← getIndex choices 0;
  getProp first name.

(** [openAITextToOpenAIChat] *)
Definition openAITextToOpenAIChat (data_ : string)
  : result SSEResponseTransformResult :=
  let rawEvent := parseEvent data_ in
  match data rawEvent with
  | None => Ok {| position := -1; event := None |}
  | Some d =>
      if bool_decide (d = "") || bool_decide (d = "[DONE]")
      then Ok {| position := -1; event := None |}
      else
        completionEvent ← asCompletionEvent d;
        match completionEvent with
        | None => Ok {| position := -1; event := None |}
        | Some completionEvent =>
            id ← getProp completionEvent "id";
            created ← getProp completionEvent "created";
            model ← getProp completionEvent "model";
            index ← choices0 completionEvent "index";
            text ← choices0 completionEvent "text";
            finish_reason ← choices0 completionEvent "finish_reason";
            let newEvent :=
              VObject
                [ ("id", id);
                  ("object", VString "chat.completion.chunk");
                  ("created", created);
                  ("model", model);
                  ("choices", VArray
                     [ VObject
                         [ ("index", index);
                           ("delta", VObject [ ("content", text) ]);
                           ("finish_reason", finish_reason) ] ]) ] in
            Ok {| position := -1; event := Some newEvent |}
        end
  end.
End WithImports.

End OpenAITextToOpenAIChat.

(** ** Histories of a provider *)

Module History.
Import GoogleAIKeyProvider.

(** A call of one of the provider's operations, with the readings of the
    clock it makes. *)
Inductive call : Type :=
| call_get (model : string) (now now' : Z)
| call_markRateLimited (keyHash : string) (now : Z)
| call_update (h : string) (patch : PartialGoogleAIKey) (now : Z)
| call_disable (k : GoogleAIKey)
| call_incrementUsage (h model : string) (tokens : Z).

Section WithImports.
Context `{Models} `{Crypto}.

(** The array after a call.  A call that throws does so before its
    first write and leaves the array as it was. *)
Definition after (keys : keys_t) (c : call) : keys_t :=
  match c with
  | call_get model now now' =>
      match get model now now' keys with
      | Ok (_, keys') => keys'
      | Throw _ => keys
      end
  | call_markRateLimited keyHash now =>
      match markRateLimited keyHash now keys with
      | Ok keys' => keys'
      | Throw _ => keys
      end
  | call_update h patch now =>
      match update h patch now keys with
      | Ok keys' => keys'
      | Throw _ => keys
      end
  | call_disable k => disable k keys
  | call_incrementUsage h model tokens =>
      incrementUsage h model tokens keys
  end.

(** The array after construction and a sequence of calls. *)
Definition run (googleAIKey : option string) (calls : list call)
  : keys_t :=
  foldl after (constructor googleAIKey) calls.
End WithImports.

(** [type GoogleAIKeyUpdate]: a patch without [key], [hash], [lastUsed],
    [promptCount], [rateLimitedAt] and [rateLimitedUntil]. *)
Definition isGoogleAIKeyUpdate (patch : PartialGoogleAIKey) : Prop :=
  p_key patch = None ∧ p_hash patch = None ∧ p_lastUsed patch = None
  ∧ p_promptCount patch = None ∧ p_rateLimitedAt patch = None
  ∧ p_rateLimitedUntil patch = None.

Definition updatesAreGoogleAIKeyUpdates (c : call) : Prop :=
  match c with
  | call_update _ patch _ => isGoogleAIKeyUpdate patch
  | _ => True
  end.
End History.

(** ** The wording of the specification *)

Module Stated.
Import GoogleAIKeyProvider.

(** "A key is currently locked out iff
    [now - rateLimitedAt < RATE_LIMIT_LOCKOUT]." *)
Definition lockedOut (now : Z) (k : GoogleAIKey) : Prop :=
  now - rateLimitedAt k < RATE_LIMIT_LOCKOUT.

(** The comparator of the selection policy: [a] ranks higher than [b]. *)
Definition ranksHigher (now : Z) (a b : GoogleAIKey) : Prop :=
  (¬ lockedOut now a ∧ lockedOut now b)
  ∨ (lockedOut now a ∧ lockedOut now b ∧ rateLimitedAt a < rateLimitedAt b)
  ∨ (¬ lockedOut now a ∧ ¬ lockedOut now b ∧ lastUsed a < lastUsed b).

(** "[rateLimitedUntil >= rateLimitedAt]" *)
Definition windowOrdered (k : GoogleAIKey) : Prop :=
  rateLimitedUntil k >= rateLimitedAt k.

(** A key is usable now when its rate limit has run out. *)
Definition usableNow (now : Z) (k : GoogleAIKey) : Prop :=
  rateLimitedUntil k <= now.

(** "0 if any [counted] key is usable now; otherwise the minimum of
    [rateLimitedUntil - now] across the [counted] keys." *)
Definition lockoutPeriodOver (counted : GoogleAIKey → Prop) (now : Z)
    (keys : keys_t) (period : Z) : Prop :=
  ((∃ k, k ∈ keys ∧ counted k ∧ usableNow now k) ∧ period = 0)
  ∨ ((∀ k, k ∈ keys → counted k → ¬ usableNow now k)
     ∧ (∃ k, k ∈ keys ∧ counted k ∧ period = rateLimitedUntil k - now)
     ∧ (∀ k, k ∈ keys → counted k → period <= rateLimitedUntil k - now)).

(** A recognised text-completion event: an object whose [choices] is an
    array that starts with an object with a [text] that is not empty. *)
Definition isTextCompletionEvent (parsed : value) : Prop :=
  ∃ props first rest,
    parsed = VObject props
    ∧ lookup_prop "choices" props = VArray (VObject first :: rest)
    ∧ truthy (lookup_prop "text" first) = true.

(** [body.choices[0].message.name] of a body sent to the client *)
Definition choice0_message (name : string) (body : record) : result value :=
  first ← getIndex (lookup_prop "choices" body) 0;
  message ← getProp first "message";
  getProp message name.

(** [body.usage.name] *)
Definition usage (name : string) (body : record) : result value :=
  getProp (lookup_prop "usage" body) name.
End Stated.

(** ** Sample imports, for running the definitions *)

Module Sample.
Import GoogleAIKeyProvider.

Definition models : Models :=
  {| getGoogleAIModelFamily := λ model,
       if startsWith model "gemini-ultra" then gemini_ultra
       else if startsWith model "gemini-flash" then gemini_flash
       else gemini_pro |}.

Definition crypto : Crypto := {| sha256_hex := λ secret, secret |}.

(** A key as the constructor builds it, with its families and its rate
    limit as the checker and earlier calls may have left them. *)
Definition aKey (secret : string) (families : list GoogleAIModelFamily)
    (used at_ until : Z) : GoogleAIKey :=
  set_lastUsed used
    (set_rateLimit at_ until
       (assign (mkPartial None None (Some families) None None None None
                          None None None None None None None None)
               (@newKey crypto secret))).

Definition dialects : Dialects :=
  {| transformOutboundPayload := λ _ _ b, Ok b;
     countPromptTokens := λ _ _, 0 |}.

(** An event parser that takes the text after "data: ", and a
    [JSON.parse] that knows three documents and rejects the rest. *)
Definition sse : SSEImports :=
  {| parseEvent := λ s,
       {| data := if startsWith s "data: "
                  then Some (String.substring 6 (String.length s - 6) s)
                  else None |};
     JSON_parse := λ s,
       if decide (s = "null") then Ok VNull
       else if decide (s = "[]") then Ok (VArray [])
       else if decide (s = "{}") then Ok (VObject [])
       else Throw (SyntaxError "Unexpected token") |}.

Definition request (path : string) (b : record) : Request :=
  mkRequest path b None None None None None VUndefined None.
End Sample.

(** ** The rest of the Google AI key provider *)

Module GoogleAIKeyProviderViews.
Import GoogleAIKeyProvider.



End GoogleAIKeyProviderViews.

(** ** The clock along a history *)

Module Timeline.
Import GoogleAIKeyProvider History.

(** The readings of a call do not go back behind [t] nor behind one
    another. *)
Definition readsFrom (t : Z) (c : call) : Prop :=
  match c with
  | call_get _ now now' => t <= now ∧ now <= now'
  | call_markRateLimited _ now => t <= now
  | call_update _ _ now => t <= now
  | call_disable _ => True
  | call_incrementUsage _ _ _ => True
  end.

(** The last reading of the clock once the call is over. *)
Definition timeAfter (t : Z) (c : call) : Z :=
  match c with
  | call_get _ _ now' => now'
  | call_markRateLimited _ now => now
  | call_update _ _ now => now
  | call_disable _ => t
  | call_incrementUsage _ _ _ => t
  end.

(** A clock that never goes back along a sequence of calls, from [t] on. *)
Fixpoint nonDecreasingFrom (t : Z) (calls : list call) : Prop :=
  match calls with
  | [] => True
  | c :: calls' => readsFrom t c ∧ nonDecreasingFrom (timeAfter t c) calls'
  end.

Definition timeAfterAll (t : Z) (calls : list call) : Z :=
  foldl timeAfter t calls.

(** No record was used after [t] or is rate limited beyond the lockout
    that a 429 at [t] arms. *)
Definition notAheadOf (t : Z) (keys : keys_t) : Prop :=
  Forall (λ k, lastUsed k <= t
               ∧ rateLimitedUntil k <= t + RATE_LIMIT_LOCKOUT) keys.

End Timeline.

(** ** The model listing of the Anthropic router *)

Module AnthropicModels.

Definition claudeVariants : list string :=
  [ "claude-v1"; "claude-v1-100k"; "claude-instant-v1";
    "claude-instant-v1-100k"; "claude-v1.3"; "claude-v1.3-100k";
    "claude-v1.2"; "claude-v1.0"; "claude-instant-v1.1";
    "claude-instant-v1.1-100k"; "claude-instant-v1.0"; "claude-2";
    "claude-2.0"; "claude-2.1"; "claude-3-opus-20240229";
    "claude-3-sonnet-20240229" ].

(** The module's variables [modelsCache] and [modelsCacheTime]. *)
Record ModelsCache : Type :=
  { modelsCache : value;
    modelsCacheTime : Z }.

Definition initialModelsCache : ModelsCache :=
  {| modelsCache := VNull; modelsCacheTime := 0 |}.

(** The entry of the listing for one variant, created at [created]. *)
Definition modelEntry (created : Z) (id : string) : value :=
  VObject [ ("id", VString id);
            ("object", VString "model");
            ("created", VNumber created);
            ("owned_by", VString "anthropic");
            ("permission", VArray []);
            ("root", VString "claude");
            ("parent", VNull) ].

(** [!config.anthropicKey] *)
Definition noAnthropicKey (config : Config) : bool :=
  match anthropicKey config with
  | None | Some EmptyString => true
  | Some _ => false
  end.

(** [getModelsResponse()].  The clock is read once for the test of the
    cache ([now]), once for each variant ([createdAt i] for the variant
    at position [i]) and once for the time of the cache ([storedAt]). *)
Definition getModelsResponse (config : Config) (now : Z)
    (createdAt : nat → Z) (storedAt : Z) (st : ModelsCache)
  : value * ModelsCache :=
  if bool_decide (now - modelsCacheTime st < 1000 * 60)
  then (modelsCache st, st)
  else if noAnthropicKey config
  then (VObject [ ("object", VString "list"); ("data", VArray []) ], st)
  else
    let models := imap (λ i id, modelEntry (createdAt i) id) claudeVariants in
    let response :=
      VObject [ ("object", VString "list"); ("data", VArray models) ] in
    (response, {| modelsCache := response; modelsCacheTime := storedAt |}).

(** [handleModelRequest]: what it sends, and the cache it leaves. *)
Definition handleModelRequest (config : Config) (now : Z)
    (createdAt : nat → Z) (storedAt : Z) (st : ModelsCache)
  : (Z * value) * ModelsCache :=
  let '(response, st') := getModelsResponse config now createdAt storedAt st in
  ((200, response), st').

End AnthropicModels.

(** ** Shapes of bodies *)

Module Shapes.

(** A part of an Anthropic chat response: [{ type, text }]. *)
Definition contentPart (ty text : string) : value :=
  VObject [ ("type", VString ty); ("text", VString text) ].

(** The texts of the parts of type "text", in order, run together. *)
Fixpoint textOf (parts : list (string * string)) : string :=
  match parts with
  | [] => EmptyString
  | (ty, text) :: parts' =>
      (if bool_decide (ty = "text") then text else EmptyString)
      +:+ textOf parts'
  end.

(** The path of the upstream endpoint of an outbound dialect. *)
Definition endpointOf (outApi : APIFormat) : string :=
  match outApi with
  | api_anthropic_chat => "/v1/messages"
  | _ => "/v1/complete"
  end.

(** The [POST] routes of [anthropicRouter]. *)
Inductive route : Type :=
| route_complete
| route_messages
| route_chat_completions
| route_claude_3_complete.

Definition pathOf (r : route) : string :=
  match r with
  | route_complete => "/v1/complete"
  | route_messages => "/v1/messages"
  | route_chat_completions => "/v1/chat/completions"
  | route_claude_3_complete => "/v1/claude-3/complete"
  end.

(** The inbound dialect a route is registered with. *)
Definition inboundOf (r : route) : APIFormat :=
  match r with
  | route_complete => api_anthropic_text
  | route_messages => api_anthropic_chat
  | route_chat_completions => api_openai
  | route_claude_3_complete => api_anthropic_text
  end.

Definition handlerOf `{Dialects} (r : route) : Request → result Request :=
  match r with
  | route_complete => AnthropicProxy.post_v1_complete
  | route_messages => AnthropicProxy.post_v1_messages
  | route_chat_completions => AnthropicProxy.post_v1_chat_completions
  | route_claude_3_complete => AnthropicProxy.post_v1_claude_3_complete
  end.

End Shapes.

(** ** Kinds of calls *)

Module Kinds.
Import GoogleAIKeyProvider History.

(** A call that cannot enable a key again or rename one: any call but an
    [update] that sets [isDisabled] or [hash]. *)
Definition neverEnables (c : call) : Prop :=
  match c with
  | call_update _ patch _ => p_isDisabled patch = None ∧ p_hash patch = None
  | _ => True
  end.

(** A call that leaves [isDisabled] and [modelFamilies] alone: [get],
    [markRateLimited], [incrementUsage], and an [update] that sets
    neither. *)
Definition keepsEligibility (c : call) : Prop :=
  match c with
  | call_disable _ => False
  | call_update _ patch _ =>
      p_isDisabled patch = None ∧ p_modelFamilies patch = None
  | _ => True
  end.

(** [get] returns a key. *)
Definition returnsKey {A} (r : result A) : Prop := ∃ a, r = Ok a.

(** The sums of the prompt counts and of the token counts of a pool. *)
Definition totalPrompts (keys : keys_t) : Z :=
  foldr Z.add 0 (promptCount <$> keys).

(** [key[`${family}Tokens`]] *)
Definition familyTokens (family : GoogleAIModelFamily) (k : GoogleAIKey)
  : Z :=
  match family with
  | gemini_flash => gemini_flashTokens k
  | gemini_pro => gemini_proTokens k
  | gemini_ultra => gemini_ultraTokens k
  end.

Definition totalTokens (keys : keys_t) : Z :=
  foldr Z.add 0
    ((λ k, gemini_flashTokens k + gemini_proTokens k + gemini_ultraTokens k)
       <$> keys).

End Kinds.

(** ** Sample events *)

Module SampleEvents.

(** A [JSON.parse] that knows one completion chunk and one closing
    chunk. *)
Definition twoChunks : SSEImports :=
  {| parseEvent := λ s, {| data := Some s |};
     JSON_parse := λ s,
       if decide (s = "chunk") then
         Ok (VObject
               [ ("id", VString "cmpl-1"); ("created", VNumber 17);
                 ("model", VString "gpt-3.5-turbo-instruct");
                 ("choices", VArray
                    [ VObject [ ("text", VString "Hel"); ("index", VNumber 0);
                                ("finish_reason", VNull) ] ]) ])
       else if decide (s = "closing") then
         Ok (VObject
               [ ("id", VString "cmpl-1");
                 ("choices", VArray
                    [ VObject [ ("text", VString ""); ("index", VNumber 0);
                                ("finish_reason", VString "stop") ] ]) ])
       else Throw (SyntaxError "Unexpected token") |}.

End SampleEvents.

(** * Properties *)

(** ** Sorting with a consistent comparator *)

Section SortFacts.
Context {A : Type} (compareFn : A → A → Z).
Hypothesis compare_total : ∀ x y, 0 < compareFn x y → compareFn y x <= 0.
Hypothesis compare_trans :
  ∀ x y z, compareFn x y <= 0 → compareFn y z <= 0 → compareFn x z <= 0.

Lemma head_insert_sorted x l :
  head (insert_sorted compareFn x l)
  = match head l with
    | None => Some x
    | Some y => if compareFn x y <=? 0 then Some x else Some y
    end.
Proof.
  destruct l as [|y l]; simpl; [done|].
  by destruct (compareFn x y <=? 0).
Qed.

(** The first element of the sorted array is an element of the array
    that no element precedes in the order of the comparator. *)
Lemma head_sort_least l :
  l ≠ [] →
  ∃ m, head (sort compareFn l) = Some m ∧ m ∈ l
       ∧ ∀ y, y ∈ l → compareFn m y <= 0.
Proof using compare_total compare_trans.
  induction l as [|x l IH]; [done|]. intros _.
  unfold sort in *. simpl. rewrite head_insert_sorted.
  destruct l as [|x' l'].
  - simpl. exists x. split_and!; [done|by apply elem_of_cons; auto|].
    intros y Hy. apply list_elem_of_singleton in Hy as ->.
    destruct (Z_lt_le_dec 0 (compareFn x x)) as [Hlt|]; [|done].
    by apply compare_total.
  - destruct IH as (m & Hm & Hin & Hle); [done|].
    rewrite Hm. destruct (Z.leb_spec (compareFn x m) 0) as [Hxm|Hxm].
    + exists x. split_and!; [done|by apply elem_of_cons; auto|].
      intros y [->|Hy]%elem_of_cons.
      * destruct (Z_lt_le_dec 0 (compareFn x x)) as [Hlt|]; [|done].
        by apply compare_total.
      * eapply compare_trans; [exact Hxm|by apply Hle].
    + exists m. split_and!; [done|by apply elem_of_cons; auto|].
      intros y [->|Hy]%elem_of_cons; [by apply compare_total|by apply Hle].
Qed.
End SortFacts.

(** ** The Google AI key provider *)

Module GoogleAIKeyProviderFacts.
Import GoogleAIKeyProvider Stated.

Lemma compareKeys_total now a b :
  0 < compareKeys now a b → compareKeys now b a <= 0.
Proof.
  unfold compareKeys. repeat case_bool_decide; simpl; lia.
Qed.

Lemma compareKeys_trans now a b c :
  compareKeys now a b <= 0 → compareKeys now b c <= 0 →
  compareKeys now a c <= 0.
Proof.
  unfold compareKeys. repeat case_bool_decide; simpl; lia.
Qed.

(** The comparator of the source is the one the specification words. *)
Lemma compareKeys_ranksHigher now a b :
  compareKeys now a b < 0 ↔ ranksHigher now a b.
Proof.
  unfold compareKeys, ranksHigher, lockedOut.
  repeat case_bool_decide; simpl; lia.
Qed.

Lemma compareKeys_not_ranksHigher now a b :
  compareKeys now a b <= 0 → ¬ ranksHigher now b a.
Proof.
  rewrite <-compareKeys_ranksHigher. unfold compareKeys.
  repeat case_bool_decide; simpl; lia.
Qed.

Lemma find_hash_alter f i h keys j kj :
  (∀ k, hash (f k) = hash k) →
  find_hash h keys = Some (j, kj) →
  find_hash h (alter f i keys)
  = Some (j, if decide (i = j) then f kj else kj).
Proof.
  intros Hf (Hj & Hh & Hfirst)%list_find_Some.
  apply list_find_Some. split_and!.
  - rewrite list_lookup_alter. case_decide; subst; by rewrite ?Hj.
  - case_decide; by rewrite ?Hf.
  - intros j' y. rewrite list_lookup_alter. intros Hy Hlt.
    case_decide; subst.
    + destruct (keys !! j') as [y'|] eqn:Hy'; simplify_eq/=.
      rewrite Hf. by eapply Hfirst.
    + by eapply Hfirst.
Qed.

Section WithImports.
Context `{Models}.

Lemma available_keys_elem (f : GoogleAIModelFamily) keys i k :
  (i, k) ∈ filter (λ ik : nat * GoogleAIKey, eligible f ik.2)
                  (imap pair keys)
  ↔ keys !! i = Some k ∧ eligible f k.
Proof.
  rewrite list_elem_of_filter, elem_of_lookup_imap. simpl. split.
  - intros (He & i' & k' & Heq & Hk). by simplify_eq.
  - intros [Hk He]. eauto.
Qed.

(** [get] fails when no key is eligible ... *)
Lemma get_Throw model now now' keys :
  (∀ k, k ∈ keys → ¬ eligible (getGoogleAIModelFamily model) k) →
  get model now now' keys
  = Throw (PaymentRequiredError "No Google AI keys available").
Proof.
  intros Hnone. unfold get.
  destruct (filter _ (imap pair keys)) as [|[i k] l] eqn:Hl; [done|].
  assert ((i, k) ∈ filter
            (λ ik : nat * GoogleAIKey,
               eligible (getGoogleAIModelFamily model) ik.2)
            (imap pair keys)) as Hin
    by (rewrite Hl; apply elem_of_cons; auto).
  apply available_keys_elem in Hin as [Hk He].
  destruct (Hnone k); [by eapply list_elem_of_lookup_2|done].
Qed.

(** ... and otherwise picks a least key of the comparator, writes
    [lastUsed] through its reference, throttles the first key with
    its hash and returns a copy of the key picked. *)
Lemma get_Ok model now now' keys :
  (∃ k, k ∈ keys ∧ eligible (getGoogleAIModelFamily model) k) →
  ∃ i k0 j kj,
    keys !! i = Some k0
    ∧ eligible (getGoogleAIModelFamily model) k0
    ∧ (∀ k', k' ∈ keys → eligible (getGoogleAIModelFamily model) k' →
             compareKeys now k0 k' <= 0)
    ∧ find_hash (hash k0) keys = Some (j, kj)
    ∧ let until := rateLimitedUntil kj `max` (now' + KEY_REUSE_DELAY) in
      get model now now' keys
      = Ok (if decide (j = i)
            then set_rateLimit now' until (set_lastUsed now k0)
            else set_lastUsed now k0,
            alter (set_rateLimit now' until) j
                  (alter (set_lastUsed now) i keys)).
Proof.
  intros (k & [ik Hk]%list_elem_of_lookup & He). unfold get.
  set (cmp := λ a b : nat * GoogleAIKey, compareKeys now a.2 b.2).
  destruct (head_sort_least cmp
              (λ x y, compareKeys_total now x.2 y.2)
              (λ x y z, compareKeys_trans now x.2 y.2 z.2)
              (filter (λ ik : nat * GoogleAIKey,
                         eligible (getGoogleAIModelFamily model) ik.2)
                      (imap pair keys)))
    as ([i k0] & Hhead & Hin & Hleast).
  { intros Hnil. assert ((ik, k) ∈ @nil (nat * GoogleAIKey)) as Hbad.
    { rewrite <-Hnil. by apply available_keys_elem. }
    by apply elem_of_nil in Hbad. }
  apply available_keys_elem in Hin as [Hk0 He0].
  destruct (list_find_elem_of (λ k, hash k = hash k0) keys k0)
    as [[j kj] Hfind]; [by eapply list_elem_of_lookup_2|done|].
  exists i, k0, j, kj. split_and!; [done..| |done|].
  { intros k' [i' Hk']%list_elem_of_lookup He'.
    apply (Hleast (i', k')). by apply available_keys_elem. }
  destruct (filter _ (imap pair keys)) as [|a l] eqn:Hl; [done|].
  destruct (sort cmp (a :: l)) as [|[i0 k00] sorted] eqn:Hs; [done|].
  simpl in Hhead. simplify_eq.
  unfold throttle.
  rewrite (find_hash_alter (set_lastUsed now) i _ keys j kj); [|done..].
  assert (rateLimitedUntil (if decide (i = j) then set_lastUsed now kj
                            else kj) = rateLimitedUntil kj) as ->
    by by case_decide.
  simpl. rewrite list_lookup_alter.
  apply list_find_Some in Hfind as Hj. destruct Hj as (Hj & _ & _).
  case_decide as Hji.
  - subst. rewrite list_lookup_alter_eq, Hk0. simpl.
    by rewrite ?decide_True by done.
  - rewrite list_lookup_alter_eq, Hk0. simpl.
    by rewrite ?decide_False by done.
Qed.

Lemma eligible_cases (f : GoogleAIModelFamily) (keys : keys_t) :
  (∀ k, k ∈ keys → ¬ eligible f k) ∨ (∃ k, k ∈ keys ∧ eligible f k).
Proof.
  destruct (decide (Exists (eligible f) keys)) as [Hex|Hno].
  - right. by apply Exists_exists.
  - left. intros k Hk He. apply Hno, Exists_exists. eauto.
Qed.

(** C1.  [get(model)] throws [PaymentRequiredError] ("No Google AI keys
    available") exactly when no key of the provider is non-disabled
    with the family of the model among its [modelFamilies]; it throws
    nothing else; and a key it returns is not disabled and has that
    family. *)
Theorem get_eligible_or_no_keys_available model now now' keys :
  let family := getGoogleAIModelFamily model in
  (get model now now' keys
     = Throw (PaymentRequiredError "No Google AI keys available")
   ↔ ∀ k, k ∈ keys → ¬ (isDisabled k = false ∧ family ∈ modelFamilies k))
  ∧ (∀ e, get model now now' keys = Throw e →
          e = PaymentRequiredError "No Google AI keys available")
  ∧ (∀ k keys', get model now now' keys = Ok (k, keys') →
                isDisabled k = false ∧ family ∈ modelFamilies k).
Proof.
  intros family.
  destruct (eligible_cases family keys) as [Hnone|Hsome].
  - rewrite (get_Throw model now now' keys Hnone).
    split_and!; [done|by intros e [= <-]|done].
  - destruct (get_Ok model now now' keys Hsome)
      as (i & k0 & j & kj & Hk0 & [Hd Hf] & _ & _ & Hget).
    simpl in Hget. rewrite Hget. split_and!.
    + split; [done|]. intros Hnone. destruct Hsome as (k & Hk & He).
      by destruct (Hnone k).
    + done.
    + intros k keys' [= <- _]. by case_decide.
Qed.

(** C2.  The comparator of [get] is the one of the selection policy,
    with a lockout of 2000 ms: a key that is not locked out ranks
    higher than one that is; of two keys locked out, the one rate
    limited earlier; of two keys not locked out, the one used
    earlier.  When some key is eligible, [get] returns the key stored
    at a position whose key, as it was before the call, is eligible
    and has no eligible key ranking higher. *)
Theorem get_returns_highest_ranked model now now' keys :
  let family := getGoogleAIModelFamily model in
  (∃ k, k ∈ keys ∧ eligible family k) →
  RATE_LIMIT_LOCKOUT = 2000
  ∧ (∀ a b, compareKeys now a b < 0 ↔ ranksHigher now a b)
  ∧ ∃ i k0 k keys',
      get model now now' keys = Ok (k, keys')
      ∧ keys !! i = Some k0 ∧ keys' !! i = Some k
      ∧ key k = key k0 ∧ hash k = hash k0
      ∧ eligible family k0
      ∧ ∀ k', k' ∈ keys → eligible family k' → ¬ ranksHigher now k' k0.
Proof.
  intros family Hsome. split; [done|].
  split; [apply compareKeys_ranksHigher|].
  destruct (get_Ok model now now' keys Hsome)
    as (i & k0 & j & kj & Hk0 & He & Hleast & _ & Hget).
  simpl in Hget. eexists i, k0, _, _. split; [exact Hget|].
  split_and!; [done| |by case_decide..|done|].
  - rewrite list_lookup_alter.
    case_decide; subst; by rewrite list_lookup_alter_eq, Hk0.
  - intros k' Hk' He'. by apply compareKeys_not_ranksHigher, Hleast.
Qed.

(** What [get] leaves in the array, for the two readings of the clock
    and hashes that are unique. *)
Lemma get_stored_record model now now' keys k keys' :
  NoDup (hash <$> keys) →
  get model now now' keys = Ok (k, keys') →
  ∃ i k0,
    keys !! i = Some k0 ∧ hash k = hash k0
    ∧ find_hash (hash k) keys' = Some (i, k)
    ∧ k = set_rateLimit now'
            (rateLimitedUntil k0 `max` (now' + KEY_REUSE_DELAY))
            (set_lastUsed now k0)
    ∧ keys' = <[i := k]> keys.
Proof.
  intros Hnodup Hget.
  destruct (eligible_cases (getGoogleAIModelFamily model) keys)
    as [Hnone|Hsome].
  { by rewrite (get_Throw model now now' keys Hnone) in Hget. }
  destruct (get_Ok model now now' keys Hsome)
    as (i & k0 & j & kj & Hk0 & _ & _ & Hfind & Hget').
  simpl in Hget'. rewrite Hget' in Hget. clear Hget'.
  apply list_find_Some in Hfind as Hj. destruct Hj as (Hj & Hh & _).
  assert (j = i) as ->.
  { eapply (NoDup_lookup _ _ _ (hash k0) Hnodup);
      rewrite list_lookup_fmap; [by rewrite Hj; simpl; f_equal|].
    by rewrite Hk0. }
  simplify_eq. rewrite decide_True by done.
  exists i, k0. split_and!; [done..| |done|].
  - eapply (find_hash_alter (set_lastUsed now) i) in Hfind; [|done].
    eapply (find_hash_alter
              (set_rateLimit now'
                 (rateLimitedUntil k0 `max` (now' + KEY_REUSE_DELAY))) i)
      in Hfind; [|done].
    by rewrite !decide_True in Hfind by done.
  - rewrite list_alter_alter_eq. apply list_eq. intros i'.
    rewrite list_lookup_alter, list_lookup_insert.
    case_decide; subst.
    + rewrite Hk0. apply lookup_lt_Some in Hk0.
      by rewrite decide_True by done.
    + by rewrite decide_False by (by intros [? ?]).
Qed.

(** C5.  After [get] has returned the key [k] at time [now], the
    record stored for [k] has [lastUsed = now] and
    [rateLimitedUntil] the larger of what it was and
    [now + KEY_REUSE_DELAY], where [KEY_REUSE_DELAY] is 500 ms.
    ([get] and [throttle] each read the clock; both read [now].  The
    record of [k] is the one found by its hash, hashes being unique
    in a provider.) *)
Theorem get_stamps_lastUsed_and_throttles model now keys k keys' :
  NoDup (hash <$> keys) →
  get model now now keys = Ok (k, keys') →
  KEY_REUSE_DELAY = 500
  ∧ ∃ i k0 stored,
      keys !! i = Some k0 ∧ hash k0 = hash k
      ∧ find_hash (hash k) keys' = Some (i, stored)
      ∧ lastUsed stored = now
      ∧ rateLimitedUntil stored
        = rateLimitedUntil k0 `max` (now + KEY_REUSE_DELAY).
Proof.
  intros Hnodup Hget. split; [done|].
  destruct (get_stored_record model now now keys k keys' Hnodup Hget)
    as (i & k0 & Hk0 & Hh & Hfind & -> & _).
  eexists i, k0, _. by split_and!; [| |exact Hfind| |].
Qed.
End WithImports.

(** *** The lockout period *)

Lemma length_filter_all {A} (P : A → Prop) `{∀ x, Decision (P x)}
    (l : list A) :
  (∀ x, x ∈ l → P x) → length (filter P l) = length l.
Proof.
  induction l as [|x l IH]; intros Hall; [done|].
  rewrite filter_cons_True by (apply Hall, elem_of_cons; auto).
  simpl. f_equal. apply IH. intros y Hy. apply Hall, elem_of_cons. auto.
Qed.

(** [Math.min] of a non-empty list is one of its elements and exceeds
    none of them. *)
Lemma foldr_min_least (x0 : Z) (xs : list Z) :
  let m := foldr Z.min x0 xs in
  m ∈ x0 :: xs ∧ ∀ y, y ∈ x0 :: xs → m <= y.
Proof.
  induction xs as [|x xs [IHin IHle]]; simpl in *.
  - split; [apply elem_of_cons; auto|].
    intros y ->%list_elem_of_singleton. lia.
  - split.
    + destruct (Z.min_spec x (foldr Z.min x0 xs)) as [[_ ->]|[_ ->]].
      * apply elem_of_cons; right. apply elem_of_cons; auto.
      * apply elem_of_cons in IHin as [->|Hin];
          [apply elem_of_cons; auto|].
        apply elem_of_cons; right. apply elem_of_cons; auto.
    + intros y [->|[->|Hy]%elem_of_cons]%elem_of_cons.
      * etrans; [apply Z.le_min_r|]. apply IHle, elem_of_cons; auto.
      * apply Z.le_min_l.
      * etrans; [apply Z.le_min_r|]. apply IHle, elem_of_cons; auto.
Qed.

(** C4, as the code has it.  [getLockoutPeriod] takes no model and
    counts every key that is not disabled, whatever its families: it
    returns 0 when there is no such key; otherwise 0 if one of them is
    usable now, and else the minimum of [rateLimitedUntil - now] over
    them. *)
Theorem getLockoutPeriod_over_active_keys now keys :
  let period := getLockoutPeriod now keys in
  ((∀ k, k ∈ keys → isDisabled k ≠ false) ∧ period = 0)
  ∨ lockoutPeriodOver (λ k, isDisabled k = false) now keys period.
Proof.
  unfold getLockoutPeriod, lockoutPeriodOver, usableNow.
  set (active := filter (λ k, isDisabled k = false) keys).
  assert (∀ k, k ∈ active ↔ k ∈ keys ∧ isDisabled k = false) as Hactive.
  { intros k. unfold active. rewrite list_elem_of_filter. tauto. }
  destruct active as [|k0 rest] eqn:Hl.
  { left. split; [|done]. intros k Hk Hd.
    eapply elem_of_nil, Hactive. eauto. }
  right. simpl. case_bool_decide as Hany.
  - left. split; [|done].
    destruct (decide (Forall (λ k, now < rateLimitedUntil k) (k0 :: rest)))
      as [Hall|Hnot].
    + rewrite length_filter_all in Hany; [simpl in Hany; lia|].
      by apply Forall_forall.
    + apply not_Forall_Exists, Exists_exists in Hnot as (k & Hk & Hu);
        [|apply _].
      apply Hactive in Hk as [Hk Hd]. simpl in Hu.
      exists k. split_and!; [done..|lia].
  - assert (∀ k, k ∈ k0 :: rest → now < rateLimitedUntil k) as Hall.
    { intros k Hk.
      destruct (decide (now < rateLimitedUntil k)) as [|Hu]; [done|].
      destruct Hany. change (S (length rest)) with (length (k0 :: rest)).
      by eapply length_filter_lt. }
    right.
    destruct (foldr_min_least (rateLimitedUntil k0 - now)
                ((λ k, rateLimitedUntil k - now) <$> rest)) as [Hin Hle].
    split_and!.
    + intros k Hk Hd. apply Z.lt_nge, Hall, Hactive. done.
    + change (foldr Z.min (rateLimitedUntil k0 - now)
                ((λ k, rateLimitedUntil k - now) <$> rest)
              ∈ (λ k, rateLimitedUntil k - now) <$> (k0 :: rest)) in Hin.
      apply list_elem_of_fmap in Hin as (k & Heq & Hk).
      apply Hactive in Hk as [Hk Hd]. eauto.
    + intros k Hk Hd. apply Hle.
      change (rateLimitedUntil k - now
              ∈ (λ k, rateLimitedUntil k - now) <$> (k0 :: rest)).
      apply list_elem_of_fmap. exists k. split; [done|].
      by apply Hactive.
Qed.

(** C4, as stated, fails: a key that is not disabled but lacks the
    family of the model still counts.  With a [gemini-pro] key rate
    limited until 1000 and a [gemini-flash] key that is free, the period
    at time 500 is 0, although the only key eligible for [gemini-pro]
    is usable in 500 ms. *)
Lemma getLockoutPeriod_ignores_family :
  let keys := [ Sample.aKey "k1" [gemini_pro] 0 0 1000;
                Sample.aKey "k2" [gemini_flash] 0 0 0 ] in
  let family := @getGoogleAIModelFamily Sample.models "gemini-pro" in
  getLockoutPeriod 500 keys = 0
  ∧ ¬ lockoutPeriodOver (eligible family) 500 keys
        (getLockoutPeriod 500 keys).
Proof.
  split; [reflexivity|].
  unfold lockoutPeriodOver, usableNow, eligible.
  intros [[(k & Hk & [_ Hf] & Hu) _]|(_ & (k & Hk & [_ Hf] & Hp) & _)];
    apply elem_of_cons in Hk as [->|Hk];
    try apply list_elem_of_singleton in Hk as ->;
    simpl in *; try lia;
    apply list_elem_of_singleton in Hf; discriminate.
Qed.

(** *** The order of the rate-limit window *)

Local Ltac alter_keeps_window :=
  repeat (apply Forall_alter;
          [|intros ? _ ?;
            unfold windowOrdered, KEY_REUSE_DELAY, RATE_LIMIT_LOCKOUT in *;
            simpl; lia]);
  try done.

Section Histories.
Context `{Models} `{Crypto}.
Import History.

Lemma constructor_windowOrdered googleAIKey :
  Forall windowOrdered (constructor googleAIKey).
Proof.
  unfold constructor.
  destruct (trim <$> googleAIKey) as [[|c keyConfig]|]; [done| |done].
  apply Forall_fmap, Forall_forall. intros secret _.
  unfold windowOrdered. simpl. lia.
Qed.

Lemma get_windowOrdered model now now' keys k keys' :
  Forall windowOrdered keys →
  get model now now' keys = Ok (k, keys') →
  Forall windowOrdered keys'.
Proof.
  intros Hkeys Hget.
  destruct (eligible_cases (getGoogleAIModelFamily model) keys)
    as [Hnone|Hsome].
  { by rewrite (get_Throw model now now' keys Hnone) in Hget. }
  destruct (get_Ok model now now' keys Hsome)
    as (i & k0 & j & kj & _ & _ & _ & _ & Hget').
  simpl in Hget'. rewrite Hget' in Hget. simplify_eq.
  alter_keeps_window.
Qed.

Lemma after_windowOrdered keys c :
  updatesAreGoogleAIKeyUpdates c →
  Forall windowOrdered keys → Forall windowOrdered (after keys c).
Proof.
  intros Hc Hkeys. destruct c as [model now now'|h now|h patch now|k|h model tokens];
    simpl in *.
  - destruct (get model now now' keys) as [[k keys']|e] eqn:Hget; [|done].
    by eapply get_windowOrdered.
  - unfold markRateLimited, RATE_LIMIT_LOCKOUT.
    destruct (find_hash h keys) as [[j kj]|]; [|done].
    alter_keeps_window.
  - unfold update. destruct (find_hash h keys) as [[j kj]|]; [|done].
    destruct Hc as (_ & _ & _ & _ & Hat & Huntil).
    apply Forall_alter; [done|]. intros k _ Hk.
    unfold windowOrdered in *. simpl. by rewrite Hat, Huntil.
  - unfold disable. destruct (find_hash (hash k) keys) as [[j kj]|];
      [|done].
    destruct (isDisabled kj); [done|]. alter_keeps_window.
  - unfold incrementUsage. destruct (find_hash h keys) as [[j kj]|];
      [|done].
    alter_keeps_window.
Qed.

(** C6, as the code has it.  After construction and any sequence of
    [get], [markRateLimited], [update], [disable] and
    [incrementUsage], with any readings of the clock, every key
    record has [rateLimitedUntil >= rateLimitedAt], provided each
    [update] is given a [GoogleAIKeyUpdate], a patch that sets neither
    of the two fields. *)
Theorem rateLimitedUntil_ge_rateLimitedAt googleAIKey calls :
  Forall updatesAreGoogleAIKeyUpdates calls →
  ∀ k, k ∈ run googleAIKey calls →
       rateLimitedUntil k >= rateLimitedAt k.
Proof.
  intros Hcalls. apply Forall_forall. unfold run.
  generalize (constructor_windowOrdered googleAIKey).
  generalize (constructor googleAIKey).
  induction Hcalls as [|c calls Hc _ IH]; intros keys Hkeys; [done|].
  simpl. by apply IH, after_windowOrdered.
Qed.
End Histories.

Lemma rateLimitedUntil_ge_rateLimitedAt_sample :
  let calls :=
    [ History.call_get "gemini-pro" 1000 1000;
      History.call_markRateLimited "plm-k1" 1200;
      History.call_update "plm-k2"
        (mkPartial None None (Some [gemini_pro; gemini_flash]) None None
                   None None None None None None None None None None) 1300;
      History.call_get "gemini-flash" 1400 1401;
      History.call_incrementUsage "plm-k2" "gemini-flash" 25;
      History.call_disable (Sample.aKey "k1" [] 0 0 0) ] in
  Forall History.updatesAreGoogleAIKeyUpdates calls
  ∧ ∀ k, k ∈ @History.run Sample.models Sample.crypto (Some "k1, k2, k1")
               calls →
         rateLimitedUntil k >= rateLimitedAt k.
Proof.
  intros calls.
  assert (Forall History.updatesAreGoogleAIKeyUpdates calls) as Hcalls
    by (repeat constructor).
  split; [exact Hcalls|].
  exact (@rateLimitedUntil_ge_rateLimitedAt Sample.models Sample.crypto
           (Some "k1, k2, k1") calls Hcalls).
Defined.

Example a_history :
  (λ k, (key k, isDisabled k, modelFamilies k, promptCount k, lastUsed k,
         rateLimitedAt k, rateLimitedUntil k, gemini_flashTokens k))
    <$> @History.run Sample.models Sample.crypto (Some "k1, k2, k1")
          [ History.call_get "gemini-pro" 1000 1000;
            History.call_markRateLimited "plm-k1" 1200;
            History.call_update "plm-k2"
              (mkPartial None None (Some [gemini_pro; gemini_flash]) None
                 None None None None None None None None None None None)
              1300;
            History.call_get "gemini-flash" 1400 1401;
            History.call_incrementUsage "plm-k2" "gemini-flash" 25;
            History.call_disable (Sample.aKey "k1" [] 0 0 0) ]
  = [ ("k1", true, [gemini_pro], 0, 1000, 1200, 3200, 0);
      ("k2", false, [gemini_pro; gemini_flash], 1, 1400, 1401, 1901, 25) ].
Proof. reflexivity. Qed.

(** C6, as stated, fails: [update] takes any [Partial<GoogleAIKey>] and
    assigns whatever fields it holds.  A patch that sets [rateLimitedAt]
    to 1 on a fresh key leaves [rateLimitedUntil = 0] below it. *)
Lemma update_can_disorder_the_window :
  let patch := mkPartial None None None None None None None (Some 1) None
                         None None None None None None in
  let keys := @History.run Sample.models Sample.crypto (Some "k")
                [History.call_update "plm-k" patch 0] in
  ∃ k, k ∈ keys ∧ ¬ rateLimitedUntil k >= rateLimitedAt k.
Proof.
  eexists. split; [apply elem_of_cons; left; reflexivity|].
  simpl. lia.
Qed.

(** *** The properties at work on a small pool *)

Example get_prefers_the_key_not_locked_out :
  let keys := [ Sample.aKey "k1" [gemini_pro] 0 4000 6000;
                Sample.aKey "k2" [gemini_pro] 3000 0 3500 ] in
  (λ r, key r.1) <$> @get Sample.models "gemini-pro" 5000 5000 keys
  = Ok "k2".
Proof. reflexivity. Qed.

Example get_prefers_the_least_recently_used :
  let keys := [ Sample.aKey "k1" [gemini_pro] 3000 0 3500;
                Sample.aKey "k2" [gemini_pro] 1000 0 1500;
                Sample.aKey "k3" [gemini_flash] 0 0 0 ] in
  (λ r, (key r.1, lastUsed r.1, rateLimitedUntil r.1))
    <$> @get Sample.models "gemini-pro" 5000 5000 keys
  = Ok ("k2", 5000, 5500).
Proof. reflexivity. Qed.

Example get_without_eligible_key :
  @get Sample.models "gemini-ultra" 5000 5000
       [ Sample.aKey "k1" [gemini_pro] 0 0 0 ]
  = Throw (PaymentRequiredError "No Google AI keys available").
Proof. reflexivity. Qed.

Lemma get_returns_highest_ranked_sample :
  let keys := [ Sample.aKey "k1" [gemini_pro] 0 4000 6000;
                Sample.aKey "k2" [gemini_pro] 3000 0 3500 ] in
  let family := @getGoogleAIModelFamily Sample.models "gemini-pro" in
  (∃ k, k ∈ keys ∧ eligible family k)
  ∧ ∃ i k0 k keys',
      @get Sample.models "gemini-pro" 5000 5000 keys = Ok (k, keys')
      ∧ keys !! i = Some k0 ∧ keys' !! i = Some k
      ∧ key k = key k0 ∧ hash k = hash k0
      ∧ eligible family k0
      ∧ ∀ k', k' ∈ keys → eligible family k' → ¬ ranksHigher 5000 k' k0.
Proof.
  intros keys family.
  assert (∃ k, k ∈ keys ∧ eligible family k) as Hsome.
  { exists (Sample.aKey "k1" [gemini_pro] 0 4000 6000).
    split; [apply elem_of_cons; auto|].
    split; [reflexivity|apply elem_of_cons; auto]. }
  split; [exact Hsome|].
  exact (proj2 (proj2 (@get_returns_highest_ranked Sample.models
                         "gemini-pro" 5000 5000 keys Hsome))).
Defined.

Lemma get_stamps_lastUsed_and_throttles_sample :
  let keys := [ Sample.aKey "k1" [gemini_pro] 3000 0 3500;
                Sample.aKey "k2" [gemini_pro] 1000 0 6000 ] in
  let k := set_rateLimit 5000 6000
             (set_lastUsed 5000
                (Sample.aKey "k2" [gemini_pro] 1000 0 6000)) in
  let keys' := <[1%nat := k]> keys in
  NoDup (hash <$> keys)
  ∧ @get Sample.models "gemini-pro" 5000 5000 keys = Ok (k, keys')
  ∧ KEY_REUSE_DELAY = 500
  ∧ ∃ i k0 stored,
      keys !! i = Some k0 ∧ hash k0 = hash k
      ∧ find_hash (hash k) keys' = Some (i, stored)
      ∧ lastUsed stored = 5000
      ∧ rateLimitedUntil stored
        = rateLimitedUntil k0 `max` (5000 + KEY_REUSE_DELAY).
Proof.
  intros keys k keys'.
  assert (NoDup (hash <$> keys)) as Hnodup by compute_done.
  assert (@get Sample.models "gemini-pro" 5000 5000 keys = Ok (k, keys'))
    as Hget by reflexivity.
  split; [exact Hnodup|]. split; [exact Hget|].
  exact (@get_stamps_lastUsed_and_throttles Sample.models "gemini-pro"
           5000 keys k keys' Hnodup Hget).
Defined.

End GoogleAIKeyProviderFacts.

(** ** The key pool *)

Module KeyPoolFacts.
Import KeyPool.

Lemma startsWith_app s searchString :
  startsWith s searchString = true ↔ ∃ rest, s = searchString +:+ rest.
Proof.
  unfold startsWith. revert s.
  induction searchString as [|c p IH]; intros [|c' s];
    cbn [String.prefix].
  - split; [by exists EmptyString|done].
  - split; [by eexists|done].
  - split; [done|by intros [? ?]].
  - destruct (Ascii.ascii_dec c c') as [->|Hne].
    + rewrite IH. split; intros [rest Hrest]; exists rest.
      * by rewrite Hrest.
      * by injection Hrest.
    + split; [done|]. intros [rest Hrest]. by injection Hrest.
Qed.

Lemma startsWith_gpt model :
  startsWith model "gpt-" = true → startsWith model "gpt" = true.
Proof. by intros [rest ->]%startsWith_app. Qed.

Lemma startsWith_claude model :
  startsWith model "claude-" = true → startsWith model "gpt" = false.
Proof. by intros [rest ->]%startsWith_app. Qed.

Lemma startsWith_gemini model :
  startsWith model "gemini-" = true →
  startsWith model "gpt" = false ∧ startsWith model "claude-" = false.
Proof. by intros [rest ->]%startsWith_app. Qed.

Section WithKey.
Context {Key : Type} (openaiSelect anthropicSelect : string → result Key).

(** C3, as the code has it.  [KeyPool.get(model)] infers the service
    from a prefix of the model and delegates to the provider of that
    service: a model that starts with "gpt", as every gpt- model does, goes to
    the openai provider, one that starts with "claude-" to the
    anthropic provider.  The pool holds no google-ai provider: for
    any other model, the gemini- ones included, it throws "Unknown service for
    model ...". *)
Theorem get_routes_by_prefix model :
  let pool := constructor openaiSelect anthropicSelect in
  get pool model
  = (if startsWith model "gpt"
     then KeyProvider_get (OpenAIKeyProvider openaiSelect) model
     else if startsWith model "claude-"
     then KeyProvider_get (AnthropicKeyProvider anthropicSelect) model
     else Throw (Error ("Unknown service for model " +:+ model)))
  ∧ (startsWith model "gpt-" = true → get pool model = openaiSelect model)
  ∧ (startsWith model "claude-" = true →
     get pool model = anthropicSelect model)
  ∧ (startsWith model "gemini-" = true →
     get pool model
     = Throw (Error ("Unknown service for model " +:+ model))).
Proof.
  intros pool.
  assert (get pool model
          = (if startsWith model "gpt"
             then openaiSelect model
             else if startsWith model "claude-"
             then anthropicSelect model
             else Throw (Error ("Unknown service for model " +:+ model))))
    as Hget.
  { unfold get, getService.
    destruct (startsWith model "gpt"); [done|].
    by destruct (startsWith model "claude-"). }
  split_and!; [done|..].
  - intros Hp. by rewrite Hget, (startsWith_gpt _ Hp).
  - intros Hp. by rewrite Hget, (startsWith_claude _ Hp), Hp.
  - intros Hp. destruct (startsWith_gemini _ Hp) as [Hg Hc].
    by rewrite Hget, Hg, Hc.
Qed.
End WithKey.

(** C3, as stated, fails for the gemini- models: the pool built by the
    constructor has no provider for google-ai and [get] throws. *)
Lemma get_gemini_is_unknown_service :
  let pool := constructor (λ _, Ok "an-openai-key")
                          (λ _, Ok "an-anthropic-key") in
  getKeyProvider pool google_ai = None
  ∧ get pool "gemini-pro"
    = Throw (Error "Unknown service for model gemini-pro").
Proof. split; reflexivity. Qed.

Example get_gpt_4 :
  get (constructor (λ m, Ok ("openai key for " +:+ m))
                   (λ m, Ok ("anthropic key for " +:+ m))) "gpt-4"
  = Ok "openai key for gpt-4".
Proof. reflexivity. Qed.

Example get_claude_2 :
  get (constructor (λ m, Ok ("openai key for " +:+ m))
                   (λ m, Ok ("anthropic key for " +:+ m))) "claude-2"
  = Ok "anthropic key for claude-2".
Proof. reflexivity. Qed.

End KeyPoolFacts.

(** ** The Anthropic router *)

Module AnthropicProxyFacts.
Import AnthropicProxy Stated.

Lemma lookup_prop_assign_eq name v o :
  lookup_prop name (assign_prop name v o) = v.
Proof.
  induction o as [|[n w] o IH]; simpl.
  - by rewrite decide_True.
  - case_decide; simpl; [by rewrite decide_True|by rewrite decide_False].
Qed.

Lemma lookup_prop_assign_ne name name' v o :
  name ≠ name' →
  lookup_prop name' (assign_prop name v o) = lookup_prop name' o.
Proof.
  intros Hne. induction o as [|[n w] o IH]; simpl.
  - by rewrite decide_False.
  - case_decide; simpl; subst.
    + by rewrite !decide_False.
    + by rewrite IH.
Qed.

(** C7, as the code has it.  For a non-streaming Anthropic text
    response with a string [completion], served to a client whose
    inbound dialect is openai, the body sent has
    [choices[0].message.content] equal to the completion with the white
    space at its two ends removed, [choices[0].message.role] equal to
    "assistant", [object] equal to "chat.completion", and a usage block
    whose [prompt_tokens] and [completion_tokens] are the token
    estimates of the request and whose [total_tokens] is their sum, an
    estimate that is missing counting as 0. *)
Theorem openai_client_gets_trimmed_completion
    config req upstream completion now :
  inboundApi req = Some api_openai →
  lookup_prop "completion" upstream = VString completion →
  ∃ response,
    anthropicResponseHandler config req (BodyObject upstream) now
    = Ok response
    ∧ status response = 200
    ∧ choice0_message "content" (json response)
      = Ok (VString (trim completion))
    ∧ choice0_message "role" (json response) = Ok (VString "assistant")
    ∧ lookup_prop "object" (json response) = VString "chat.completion"
    ∧ usage "prompt_tokens" (json response)
      = Ok (of_number (promptTokens req))
    ∧ usage "completion_tokens" (json response)
      = Ok (of_number (outputTokens req))
    ∧ usage "total_tokens" (json response)
      = Ok (VNumber (default 0 (promptTokens req)
                     + default 0 (outputTokens req))).
Proof.
  intros Hin Hcompletion. unfold anthropicResponseHandler.
  rewrite Hin. rewrite decide_True by done.
  unfold transformAnthropicTextResponseToOpenAI, completion_trim.
  assert (lookup_prop "completion"
            (if promptLogging config
             then assign_prop "proxy_note"
                    (VString ("Prompts are logged on this proxy instance. See "
                                +:+ default "undefined" (host req)
                                +:+ " for more information.")) upstream
             else upstream) = VString completion) as ->.
  { destruct (promptLogging config); [|done].
    by rewrite lookup_prop_assign_ne. }
  simpl. eexists. split; [reflexivity|].
  by destruct (truthy (tokenizerInfo req)).
Qed.

Lemma openai_client_gets_trimmed_completion_sample :
  let req := mkRequest "/v1/chat/completions" [] (Some api_openai)
               (Some api_anthropic_text) (Some anthropic) (Some 12)
               (Some 3) VUndefined None in
  let upstream := [ ("completion", VString " Hello there.");
                    ("stop_reason", VString "stop_sequence");
                    ("model", VString "claude-2.1");
                    ("log_id", VString "cmpl-1") ] in
  ∃ response,
    anthropicResponseHandler {| promptLogging := false; anthropicKey := None |}
      req (BodyObject upstream) 1700000000000
    = Ok response
    ∧ status response = 200
    ∧ choice0_message "content" (json response)
      = Ok (VString "Hello there.")
    ∧ choice0_message "role" (json response) = Ok (VString "assistant")
    ∧ lookup_prop "object" (json response) = VString "chat.completion"
    ∧ usage "prompt_tokens" (json response) = Ok (VNumber 12)
    ∧ usage "completion_tokens" (json response) = Ok (VNumber 3)
    ∧ usage "total_tokens" (json response) = Ok (VNumber 15).
Proof.
  intros req upstream.
  exact (openai_client_gets_trimmed_completion
           {| promptLogging := false; anthropicKey := None |}
           req upstream " Hello there." 1700000000000
           eq_refl eq_refl).
Defined.

(** C7, as stated, fails: the content is the completion trimmed, not the
    completion.  Anthropic's completions start with a space. *)
Lemma content_is_not_the_completion :
  let req := mkRequest "/v1/chat/completions" [] (Some api_openai)
               (Some api_anthropic_text) (Some anthropic) (Some 12)
               (Some 3) VUndefined None in
  let upstream := [ ("completion", VString " Hello there.");
                    ("stop_reason", VString "stop_sequence");
                    ("model", VString "claude-2.1");
                    ("log_id", VString "cmpl-1") ] in
  ∃ response,
    anthropicResponseHandler {| promptLogging := false; anthropicKey := None |}
      req (BodyObject upstream) 1700000000000
    = Ok response
    ∧ choice0_message "content" (json response)
      = Ok (VString "Hello there.")
    ∧ choice0_message "content" (json response)
      ≠ Ok (lookup_prop "completion" upstream).
Proof. eexists. split_and!; [reflexivity..|discriminate]. Qed.

(** The path filter writes [url] and nothing else. *)
Lemma anthropicProxy_keeps req :
  body (anthropicProxy req) = body req
  ∧ inboundApi (anthropicProxy req) = inboundApi req
  ∧ outboundApi (anthropicProxy req) = outboundApi req.
Proof.
  unfold anthropicProxy, pathFilter. simpl.
  by repeat (match goal with
             | |- context [if ?b then _ else _] => destruct b
             end; simpl).
Qed.

Section WithImports.
Context `{Dialects}.

(** C8.  On [POST /v1/complete] a request whose model starts with
    "claude-3" goes to the preprocessor with inbound dialect
    anthropic-text and outbound dialect anthropic-chat, and is
    forwarded to [/v1/messages]; a request for another model goes to
    the one with outbound dialect anthropic-text and keeps
    [/v1/complete].  (The translation of the body may reject a
    request; the statement is for one it accepts.) *)
Theorem v1_complete_upgrades_claude_3 req model translated :
  let outApi := if startsWith model "claude-3"
                then api_anthropic_chat else api_anthropic_text in
  url req = "/v1/complete" →
  lookup_prop "model" (body req) = VString model →
  transformOutboundPayload api_anthropic_text outApi (body req)
  = Ok translated →
  claudeTextCompletionRouter req
  = createPreprocessorMiddleware api_anthropic_text outApi anthropic
                                 [] [] req
  ∧ ∃ req',
      post_v1_complete req = Ok req'
      ∧ inboundApi req' = Some api_anthropic_text
      ∧ outboundApi req' = Some outApi
      ∧ url req' = if startsWith model "claude-3"
                   then "/v1/messages" else "/v1/complete".
Proof.
  intros outApi Hurl Hmodel Htranslated.
  assert (claudeTextCompletionRouter req
          = createPreprocessorMiddleware api_anthropic_text outApi
              anthropic [] [] req) as Hrouter.
  { unfold claudeTextCompletionRouter, outApi. rewrite Hmodel.
    by destruct (startsWith model "claude-3"). }
  split; [done|].
  unfold post_v1_complete. rewrite Hrouter.
  unfold createPreprocessorMiddleware. simpl. rewrite Htranslated.
  simpl. eexists. split; [reflexivity|].
  unfold anthropicProxy, pathFilter. simpl. rewrite Hurl.
  unfold outApi. by destruct (startsWith model "claude-3").
Qed.

(** C10.  On [POST /v1/chat/completions] of the Anthropic router a
    request whose model, as the translation of the body leaves it,
    starts with "gpt-" has the model replaced by "claude-2.1", the
    rest of the body staying as translated; with any other model the
    translated body is left as it is. *)
Theorem chat_completions_reassigns_gpt_models req translated model :
  transformOutboundPayload api_openai api_anthropic_text (body req)
  = Ok translated →
  lookup_prop "model" translated = VString model →
  ∃ req',
    post_v1_chat_completions req = Ok req'
    ∧ lookup_prop "model" (body req')
      = VString (if startsWith model "gpt-" then "claude-2.1" else model)
    ∧ (∀ name, name ≠ "model" →
               lookup_prop name (body req') = lookup_prop name translated)
    ∧ (startsWith model "gpt-" = false → body req' = translated).
Proof.
  intros Htranslated Hmodel. unfold post_v1_chat_completions.
  unfold createPreprocessorMiddleware. simpl. rewrite Htranslated.
  simpl. unfold runAll, maybeReassignModel. simpl. rewrite Hmodel.
  destruct (startsWith model "gpt-"); simpl.
  - eexists. split; [reflexivity|].
    rewrite (proj1 (anthropicProxy_keeps _)). simpl.
    split_and!; [|..|done].
    + by rewrite lookup_prop_assign_eq.
    + intros name Hne. by rewrite lookup_prop_assign_ne.
  - eexists. split; [reflexivity|].
    rewrite (proj1 (anthropicProxy_keeps _)). simpl. by split_and!.
Qed.
End WithImports.

Lemma v1_complete_upgrades_claude_3_sample :
  let req := Sample.request "/v1/complete"
               [ ("model", VString "claude-3-opus-20240229");
                 ("prompt", VString "Human: hi Assistant:") ] in
  ∃ req',
    @post_v1_complete Sample.dialects req = Ok req'
    ∧ inboundApi req' = Some api_anthropic_text
    ∧ outboundApi req' = Some api_anthropic_chat
    ∧ url req' = "/v1/messages".
Proof.
  intros req.
  exact (proj2 (@v1_complete_upgrades_claude_3 Sample.dialects req
                  "claude-3-opus-20240229" (body req)
                  eq_refl eq_refl eq_refl)).
Defined.

Example v1_complete_keeps_claude_2 :
  (λ req', (inboundApi req', outboundApi req', url req'))
    <$> @post_v1_complete Sample.dialects
          (Sample.request "/v1/complete" [ ("model", VString "claude-2.1") ])
  = Ok (Some api_anthropic_text, Some api_anthropic_text, "/v1/complete").
Proof. reflexivity. Qed.

Lemma chat_completions_reassigns_gpt_models_sample :
  let req := Sample.request "/v1/chat/completions"
               [ ("model", VString "gpt-4"); ("messages", VArray []) ] in
  ∃ req',
    @post_v1_chat_completions Sample.dialects req = Ok req'
    ∧ lookup_prop "model" (body req') = VString "claude-2.1"
    ∧ (∀ name, name ≠ "model" →
               lookup_prop name (body req') = lookup_prop name (body req))
    ∧ (startsWith "gpt-4" "gpt-" = false → body req' = body req).
Proof.
  intros req.
  exact (@chat_completions_reassigns_gpt_models Sample.dialects req
           (body req) "gpt-4" eq_refl eq_refl).
Defined.

Example chat_completions_keeps_claude_models :
  body <$> @post_v1_chat_completions Sample.dialects
             (Sample.request "/v1/chat/completions"
                [ ("model", VString "claude-2"); ("messages", VArray []) ])
  = Ok [ ("model", VString "claude-2"); ("messages", VArray []) ].
Proof. reflexivity. Qed.

End AnthropicProxyFacts.

(** ** The streaming transformer *)

Module OpenAITextToOpenAIChatFacts.
Import OpenAITextToOpenAIChat Stated.

Section WithImports.
Context `{SSEImports}.

(** [asCompletionEvent] catches whatever its body throws: it returns
    the parsed event when it is a text-completion event and [null]
    otherwise. *)
Lemma asCompletionEvent_cases event :
  (∃ parsed, JSON_parse event = Ok parsed
             ∧ isTextCompletionEvent parsed
             ∧ asCompletionEvent event = Ok (Some parsed))
  ∨ ((∀ parsed, JSON_parse event = Ok parsed →
                ¬ isTextCompletionEvent parsed)
     ∧ asCompletionEvent event = Ok None).
Proof.
  unfold asCompletionEvent, try_catch, isTextCompletionEvent.
  destruct (JSON_parse event) as [parsed|e] eqn:Hparse; simpl;
    [|by right].
  destruct parsed as [| | | | |elements|props]; simpl;
    try (right; split; [intros ? [= <-]; intros (? & ? & ? & ? & _); done|];
         by repeat case_decide).
  destruct (lookup_prop "choices" props) as [| | | | |choices|] eqn:Hchoices;
    simpl;
    try (right; split; [|done]; intros ? [= <-];
         intros (? & ? & ? & ? & ? & _); simplify_eq/=; congruence).
  destruct choices as [|first rest]; simpl;
    [right; split; [|done]; intros ? [= <-];
     intros (? & ? & ? & ? & ? & _); simplify_eq/=; congruence|].
  destruct first as [| | | | |l|firstProps]; simpl;
    try (right; split; [|by repeat case_decide]; intros ? [= <-];
         intros (? & ? & ? & ? & ? & _); simplify_eq/=; congruence).
  destruct (truthy (lookup_prop "text" firstProps)) eqn:Htext.
  - left. eexists. split_and!; [done| |done]. by eexists _, _, _.
  - right. split; [|done]. intros ? [= <-].
    intros (? & ? & ? & ? & ? & ?). simplify_eq/=. congruence.
Qed.

(** The chunk built from a text-completion event. *)
Lemma chunk_of_completion_event props first rest :
  lookup_prop "choices" props = VArray (VObject first :: rest) →
  ∃ chunk,
    (id ← getProp (VObject props) "id";
     created ← getProp (VObject props) "created";
     model ← getProp (VObject props) "model";
     index ← choices0 (VObject props) "index";
     text ← choices0 (VObject props) "text";
     finish_reason ← choices0 (VObject props) "finish_reason";
     Ok {| position := -1;
           event := Some (VObject
             [ ("id", id);
               ("object", VString "chat.completion.chunk");
               ("created", created);
               ("model", model);
               ("choices", VArray
                  [ VObject
                      [ ("index", index);
                        ("delta", VObject [ ("content", text) ]);
                        ("finish_reason", finish_reason) ] ]) ]) |})
    = Ok {| position := -1; event := Some chunk |}
    ∧ (getProp chunk "choices" ≫= λ c, getIndex c 0
         ≫= λ c, getProp c "delta" ≫= λ d, getProp d "content")
      = Ok (lookup_prop "text" first).
Proof.
  intros Hchoices. unfold choices0. simpl. rewrite Hchoices. simpl.
  by eexists.
Qed.

(** C9.  [openAITextToOpenAIChat] returns for every data string,
    whatever [parseEvent] makes of it and whether [JSON.parse]
    accepts it or throws: it never throws, its [position] is -1, and
    it carries an output event exactly when the data of the event is
    not empty, is not "[DONE]" and parses to a text-completion event;
    every other event is skipped. *)
Theorem openAITextToOpenAIChat_total data_ :
  ∃ r,
    openAITextToOpenAIChat data_ = Ok r
    ∧ position r = -1
    ∧ (is_Some (event r)
       ↔ ∃ d parsed,
           data (parseEvent data_) = Some d
           ∧ d ≠ "" ∧ d ≠ "[DONE]"
           ∧ JSON_parse d = Ok parsed
           ∧ isTextCompletionEvent parsed).
Proof.
  unfold openAITextToOpenAIChat.
  destruct (data (parseEvent data_)) as [d|] eqn:Hd.
  2:{ eexists. split_and!; [done..|].
      split; [by intros [? ?]|by intros (? & ? & ? & _)]. }
  case_bool_decide as Hempty; simpl.
  { eexists. split_and!; [done..|].
    split; [by intros [? ?]|]. intros (? & ? & ? & ? & _). congruence. }
  case_bool_decide as Hdone; simpl.
  { eexists. split_and!; [done..|].
    split; [by intros [? ?]|]. intros (? & ? & ? & ? & ? & _).
    congruence. }
  destruct (asCompletionEvent_cases d)
    as [(parsed & Hparse & Hevent & ->)|[Hnot ->]]; simpl.
  - destruct Hevent as (props & first & rest & -> & Hchoices & Htext).
    destruct (chunk_of_completion_event props first rest Hchoices)
      as (chunk & -> & _).
    eexists. split_and!; [done..|]. simpl. split; [|by eauto].
    intros _. exists d, (VObject props). split_and!; [done..|].
    by eexists _, _, _.
  - eexists. split_and!; [done..|]. simpl.
    split; [by intros [? ?]|].
    intros (d' & parsed & [= <-] & _ & _ & Hparse & Hevent).
    by destruct (Hnot parsed).
Qed.
End WithImports.

Example done_is_skipped :
  @openAITextToOpenAIChat Sample.sse "data: [DONE]"
  = Ok {| position := -1; event := None |}.
Proof. reflexivity. Qed.

Example malformed_json_is_skipped :
  @openAITextToOpenAIChat Sample.sse "data: {oops"
  = Ok {| position := -1; event := None |}.
Proof. reflexivity. Qed.

Example null_is_skipped :
  @openAITextToOpenAIChat Sample.sse "data: null"
  = Ok {| position := -1; event := None |}.
Proof. reflexivity. Qed.

Example object_without_choices_is_skipped :
  @openAITextToOpenAIChat Sample.sse "data: {}"
  = Ok {| position := -1; event := None |}.
Proof. reflexivity. Qed.

Example comment_line_is_skipped :
  @openAITextToOpenAIChat Sample.sse ": keep-alive"
  = Ok {| position := -1; event := None |}.
Proof. reflexivity. Qed.

End OpenAITextToOpenAIChatFacts.

(** ** More on the Google AI key provider *)

Module GoogleAIKeyProviderMore.
Import GoogleAIKeyProvider History Stated GoogleAIKeyProviderFacts.

(** *** Construction *)

Lemma dedupe_go_elem seen l x :
  x ∈ dedupe_go seen l ↔ x ∈ l ∧ x ∉ seen.
Proof.
  revert seen. induction l as [|y l IH]; intros seen; simpl.
  - rewrite elem_of_nil. tauto.
  - case_decide as Hseen.
    + rewrite IH, elem_of_cons. split; [tauto|].
      intros [[->|Hx] Hn]; tauto.
    + rewrite !elem_of_cons, IH, elem_of_cons. split.
      * intros [->|[Hx Hn]]; [tauto|]. tauto.
      * intros [[->|Hx] Hn]; [tauto|].
        destruct (decide (x = y)); [tauto|]. right. tauto.
Qed.

Lemma dedupe_go_NoDup seen l : NoDup (dedupe_go seen l).
Proof.
  revert seen. induction l as [|y l IH]; intros seen; simpl.
  - apply NoDup_nil_2.
  - case_decide; [apply IH|]. apply NoDup_cons_2; [|apply IH].
    rewrite dedupe_go_elem, elem_of_cons. tauto.
Qed.

Lemma fmap_alter_same {A B} (g : A → B) (f : A → A) (i : nat) (l : list A) :
  (∀ x, g (f x) = g x) → g <$> alter f i l = g <$> l.
Proof.
  intros Hg. apply list_eq. intros j.
  rewrite !list_lookup_fmap, list_lookup_alter.
  case_decide; subst; [|done].
  destruct (l !! j); simpl; [by rewrite Hg|done].
Qed.

Section Construction.
Context `{Models} `{Crypto}.

Lemma constructor_secrets_distinct googleAIKey :
  NoDup (key <$> constructor googleAIKey).
Proof.
  unfold constructor.
  destruct (trim <$> googleAIKey) as [[|c keyConfig]|];
    [apply NoDup_nil_2| |apply NoDup_nil_2].
  assert (∀ l : list string, key <$> (newKey <$> l) = l) as ->.
  { intros l. induction l as [|secret l IH]; [done|].
    csimpl. by rewrite IH. }
  apply dedupe_go_NoDup.
Qed.

(** X1.  The constructor makes one fresh record for each distinct entry of the
    comma-separated configuration, entries being compared after white
    space is trimmed; without a configuration, or with a blank one, it
    makes none. *)
Theorem constructor_one_key_per_distinct_secret googleAIKey :
  NoDup (key <$> constructor googleAIKey)
  ∧ (∀ k, k ∈ constructor googleAIKey → k = newKey (key k))
  ∧ (∀ secret,
       secret ∈ key <$> constructor googleAIKey
       ↔ ∃ raw, googleAIKey = Some raw ∧ trim raw ≠ EmptyString
                ∧ secret ∈ trim <$> split "," (trim raw)).
Proof.
  unfold constructor.
  destruct googleAIKey as [raw|]; simpl.
  2:{ split_and!; [apply NoDup_nil_2|by intros k ?%elem_of_nil|].
      intros secret. rewrite elem_of_nil. split; [done|].
      by intros (raw & ? & _). }
  destruct (trim raw) as [|c keyConfig] eqn:Hraw.
  { split_and!; [apply NoDup_nil_2|by intros k ?%elem_of_nil|].
    intros secret. simpl. rewrite elem_of_nil. split; [done|].
    intros (raw' & [= <-] & Hne & _). by rewrite Hraw in Hne. }
  assert (∀ l : list string, key <$> (newKey <$> l) = l) as Hkeys.
  { intros l. induction l as [|secret l IH]; [done|].
    csimpl. by rewrite IH. }
  rewrite Hkeys. split_and!.
  - apply dedupe_go_NoDup.
  - by intros k (secret & -> & _)%list_elem_of_fmap.
  - intros secret. unfold dedupe. rewrite dedupe_go_elem. split.
    + intros [Hin _]. exists raw. by rewrite Hraw.
    + intros (raw' & [= <-] & _ & Hin). rewrite Hraw in Hin.
      split; [done|apply not_elem_of_nil].
Qed.

(** *** What the calls never touch *)

Lemma after_keeps_identity keys c :
  updatesAreGoogleAIKeyUpdates c →
  key <$> after keys c = key <$> keys
  ∧ hash <$> after keys c = hash <$> keys.
Proof.
  intros Hc.
  destruct c as [model now now'|h now|h patch now|k|h model tokens];
    simpl in *.
  - destruct (eligible_cases (getGoogleAIModelFamily model) keys)
      as [Hnone|Hsome].
    { by rewrite (get_Throw model now now' keys Hnone). }
    destruct (get_Ok model now now' keys Hsome)
      as (i & k0 & j & kj & _ & _ & _ & _ & Hget).
    simpl in Hget. rewrite Hget. by rewrite !fmap_alter_same.
  - unfold markRateLimited. destruct (find_hash h keys) as [[j kj]|]; [|done].
    by rewrite !fmap_alter_same.
  - unfold update. destruct (find_hash h keys) as [[j kj]|]; [|done].
    destruct Hc as (Hk & Hh & _).
    rewrite !fmap_alter_same; [done|..]; intros k; simpl;
      by rewrite ?Hk, ?Hh.
  - unfold disable. destruct (find_hash (hash k) keys) as [[j kj]|]; [|done].
    destruct (isDisabled kj); [done|]. by rewrite !fmap_alter_same.
  - unfold incrementUsage. destruct (find_hash h keys) as [[j kj]|]; [|done].
    by rewrite !fmap_alter_same.
Qed.

(** X2.  Along any history whose updates are [GoogleAIKeyUpdate]s the provider
    holds the same secrets with the same hashes in the same order as
    after construction: no call adds, drops, reorders or renames a key,
    and the secrets stay distinct. *)
Theorem history_keeps_the_keys googleAIKey calls :
  Forall updatesAreGoogleAIKeyUpdates calls →
  key <$> run googleAIKey calls = key <$> constructor googleAIKey
  ∧ hash <$> run googleAIKey calls = hash <$> constructor googleAIKey
  ∧ NoDup (key <$> run googleAIKey calls).
Proof.
  intros Hcalls.
  assert (key <$> run googleAIKey calls = key <$> constructor googleAIKey
          ∧ hash <$> run googleAIKey calls
            = hash <$> constructor googleAIKey) as [Hk Hh].
  { unfold run. generalize (constructor googleAIKey).
    induction Hcalls as [|c calls Hc _ IH]; intros keys; [done|].
    simpl. destruct (IH (after keys c)) as [-> ->].
    by apply after_keeps_identity. }
  split_and!; [done..|]. rewrite Hk.
  apply constructor_secrets_distinct.
Qed.
End Construction.

Lemma history_keeps_the_keys_sample :
  let calls :=
    [ call_get "gemini-pro" 1000 1000;
      call_update "plm-k2"
        (mkPartial None None (Some [gemini_flash]) (Some true) (Some true)
                   None None None None None None None None None None) 1300;
      call_disable (Sample.aKey "k1" [] 0 0 0) ] in
  Forall updatesAreGoogleAIKeyUpdates calls
  ∧ key <$> @run Sample.models Sample.crypto (Some " k1,k2 ,k1") calls
    = [ "k1"; "k2" ]
  ∧ hash <$> @run Sample.models Sample.crypto (Some " k1,k2 ,k1") calls
    = [ "plm-k1"; "plm-k2" ].
Proof.
  intros calls.
  assert (Forall updatesAreGoogleAIKeyUpdates calls) as Hcalls
    by (repeat constructor).
  split; [exact Hcalls|].
  destruct (@history_keeps_the_keys Sample.models Sample.crypto
              (Some " k1,k2 ,k1") calls Hcalls) as (Hk & Hh & _).
  split; [exact Hk|exact Hh].
Defined.

(** *** Disabling *)

Lemma lookup_alter_Some (f : GoogleAIKey → GoogleAIKey) j (l : keys_t) i k :
  l !! i = Some k →
  alter f j l !! i = Some (if decide (j = i) then f k else k).
Proof.
  intros Hk. rewrite list_lookup_alter.
  case_decide; subst; by rewrite Hk.
Qed.

Lemma length_filter_alter (P : GoogleAIKey → Prop) `{∀ k, Decision (P k)}
    (f : GoogleAIKey → GoogleAIKey) j (l : keys_t) k :
  l !! j = Some k →
  (length (filter P (alter f j l)) + (if decide (P k) then 1 else 0)
   = length (filter P l) + (if decide (P (f k)) then 1 else 0))%nat.
Proof.
  revert j. induction l as [|x l IH]; intros [|j] Hk; simplify_eq/=.
  - rewrite !filter_cons. repeat case_decide; simpl; lia.
  - specialize (IH j Hk). rewrite !filter_cons.
    change (list_alter f j l) with (alter f j l).
    repeat case_decide; simpl in *; lia.
Qed.

Lemma unique_position (keys : keys_t) i j ki kj :
  NoDup (hash <$> keys) →
  keys !! i = Some ki → keys !! j = Some kj → hash ki = hash kj → i = j.
Proof.
  intros Hnodup Hi Hj Hh.
  eapply (NoDup_lookup _ _ _ (hash ki) Hnodup);
    rewrite list_lookup_fmap; [by rewrite Hi|by rewrite Hj, Hh].
Qed.



Section Selection.
Context `{Models}.
Import Kinds.

(** X4.  When [available()] is 0, [get] throws for every model and at every
    time. *)
Theorem no_key_available_no_key_returned keys model now now' :
  available keys = 0 →
  get model now now' keys
  = Throw (PaymentRequiredError "No Google AI keys available").
Proof.
  unfold available. intros Hzero. apply get_Throw.
  intros k Hk [Hd _].
  assert (k ∈ filter (λ k, isDisabled k = false) keys) as Hin
    by by apply list_elem_of_filter.
  destruct (filter (λ k, isDisabled k = false) keys); [|simpl in Hzero; lia].
  by apply elem_of_nil in Hin.
Qed.

Lemma after_keeps_disabled keys c :
  neverEnables c →
  hash <$> after keys c = hash <$> keys
  ∧ ∀ i k, keys !! i = Some k → isDisabled k = true →
           ∃ k', after keys c !! i = Some k' ∧ isDisabled k' = true.
Proof.
  intros Hc.
  destruct c as [model now now'|h now|h patch now|k|h model tokens];
    simpl in *.
  - destruct (eligible_cases (getGoogleAIModelFamily model) keys)
      as [Hnone|Hsome].
    { rewrite (get_Throw model now now' keys Hnone). eauto. }
    destruct (get_Ok model now now' keys Hsome)
      as (i & k0 & j & kj & _ & _ & _ & _ & Hget).
    simpl in Hget. rewrite Hget. split; [by rewrite !fmap_alter_same|].
    intros i' k' Hk' Hd. eexists. split.
    + erewrite lookup_alter_Some; [done|]. by apply lookup_alter_Some.
    + by repeat case_decide.
  - unfold markRateLimited. destruct (find_hash h keys) as [[j kj]|];
      [|eauto].
    split; [by rewrite !fmap_alter_same|].
    intros i' k' Hk' Hd. eexists. split; [by apply lookup_alter_Some|].
    by case_decide.
  - unfold update. destruct (find_hash h keys) as [[j kj]|]; [|eauto].
    destruct Hc as [Hdis Hh].
    split; [rewrite !fmap_alter_same; [done|]; intros ?; simpl;
            by rewrite Hh|].
    intros i' k' Hk' Hd. eexists. split; [by apply lookup_alter_Some|].
    case_decide; [|done]. simpl. by rewrite Hdis.
  - unfold disable. destruct (find_hash (hash k) keys) as [[j kj]|];
      [|eauto].
    destruct (isDisabled kj); [eauto|].
    split; [by rewrite !fmap_alter_same|].
    intros i' k' Hk' Hd. eexists. split; [by apply lookup_alter_Some|].
    by case_decide.
  - unfold incrementUsage. destruct (find_hash h keys) as [[j kj]|];
      [|eauto].
    split; [by rewrite !fmap_alter_same|].
    intros i' k' Hk' Hd. eexists. split; [by apply lookup_alter_Some|].
    by case_decide.
Qed.

(** X5.  A disabled key stays out of the selection for good: with unique
    hashes, whatever calls follow (save an [update] that sets
    [isDisabled] or [hash]), [get] never returns a key with the hash of a
    record that is disabled. *)
Theorem disabled_key_is_never_returned keys calls k model now now' r keys' :
  NoDup (hash <$> keys) →
  Forall neverEnables calls →
  k ∈ keys → isDisabled k = true →
  get model now now' (foldl after keys calls) = Ok (r, keys') →
  hash r ≠ hash k.
Proof.
  intros Hnodup Hcalls [ik Hk]%list_elem_of_lookup Hd Hget.
  assert (hash <$> foldl after keys calls = hash <$> keys
          ∧ ∃ k', foldl after keys calls !! ik = Some k'
                  ∧ isDisabled k' = true) as [Hhashes (k' & Hk' & Hd')].
  { clear Hget Hnodup. revert keys k Hk Hd.
    induction Hcalls as [|c calls Hc _ IH]; intros keys k Hk Hd; [eauto|].
    simpl. destruct (after_keeps_disabled keys c Hc) as [Hh Hstay].
    destruct (Hstay ik k Hk Hd) as (k1 & Hk1 & Hd1).
    destruct (IH (after keys c) k1 Hk1 Hd1) as [-> Hex]. eauto. }
  destruct (eligible_cases (getGoogleAIModelFamily model)
              (foldl after keys calls)) as [Hnone|Hsome].
  { by rewrite (get_Throw model now now' _ Hnone) in Hget. }
  destruct (get_Ok model now now' _ Hsome)
    as (i & k0 & j & kj & Hk0 & [Hen _] & _ & _ & Hget').
  simpl in Hget'. rewrite Hget' in Hget. simplify_eq.
  intros Hsame.
  assert (hash k0 = hash k') as Hh0.
  { apply (f_equal (λ l, l !! ik)) in Hhashes.
    rewrite !list_lookup_fmap, Hk', Hk in Hhashes. simpl in Hhashes.
    injection Hhashes as ->. rewrite <-Hsame. by case_decide. }
  assert (i = ik) as ->.
  { eapply unique_position; [by rewrite Hhashes|done..]. }
  congruence.
Qed.

(** X6.  Whether [get] finds a key for a model depends neither on the time nor
    on the [get]s, rate-limit marks, usage increments and
    eligibility-neutral updates made before: they leave every record's
    [isDisabled] and [modelFamilies] as they were. *)
Theorem get_succeeds_whatever_the_time keys calls model now1 now1' now2 now2' :
  Forall keepsEligibility calls →
  isDisabled <$> foldl after keys calls = isDisabled <$> keys
  ∧ modelFamilies <$> foldl after keys calls = modelFamilies <$> keys
  ∧ (returnsKey (get model now1 now1' (foldl after keys calls))
     ↔ returnsKey (get model now2 now2' keys)).
Proof.
  intros Hcalls.
  assert (isDisabled <$> foldl after keys calls = isDisabled <$> keys
          ∧ modelFamilies <$> foldl after keys calls = modelFamilies <$> keys)
    as [Hd Hf].
  { revert keys. induction Hcalls as [|c calls Hc _ IH]; intros keys; [done|].
    simpl. destruct (IH (after keys c)) as [-> ->]. clear IH.
    destruct c as [m now now'|h now|h patch now|k|h m tokens]; simpl in *.
    - destruct (eligible_cases (getGoogleAIModelFamily m) keys)
        as [Hnone|Hsome].
      { by rewrite (get_Throw m now now' keys Hnone). }
      destruct (get_Ok m now now' keys Hsome)
        as (i & k0 & j & kj & _ & _ & _ & _ & Hget).
      simpl in Hget. rewrite Hget. by rewrite !fmap_alter_same.
    - unfold markRateLimited.
      destruct (find_hash h keys) as [[j kj]|]; [|done].
      by rewrite !fmap_alter_same.
    - unfold update. destruct (find_hash h keys) as [[j kj]|]; [|done].
      destruct Hc as [Hdis Hfam].
      rewrite !fmap_alter_same; [done|..]; intros ?; simpl;
        by rewrite ?Hdis, ?Hfam.
    - done.
    - unfold incrementUsage.
      destruct (find_hash h keys) as [[j kj]|]; [|done].
      by rewrite !fmap_alter_same. }
  split_and!; [done..|].
  assert (∀ l1 l2 : keys_t,
            isDisabled <$> l1 = isDisabled <$> l2 →
            modelFamilies <$> l1 = modelFamilies <$> l2 →
            ∀ n n' m m', returnsKey (get model n n' l1) →
                         returnsKey (get model m m' l2)) as Hone.
  { intros l1 l2 Hd' Hf' n n' m m' [r Hr].
    destruct (eligible_cases (getGoogleAIModelFamily model) l1)
      as [Hnone|(k & [i Hk]%list_elem_of_lookup & [Hen Hfam])].
    { by rewrite (get_Throw model n n' l1 Hnone) in Hr. }
    apply (f_equal (λ l, l !! i)) in Hd'.
    apply (f_equal (λ l, l !! i)) in Hf'.
    rewrite !list_lookup_fmap, Hk in Hd'.
    rewrite !list_lookup_fmap, Hk in Hf'.
    destruct (l2 !! i) as [k2|] eqn:Hk2; simplify_eq/=.
    destruct (get_Ok model m m' l2) as (? & ? & ? & ? & _ & _ & _ & _ & Hget).
    { exists k2. split; [by eapply list_elem_of_lookup_2|].
      split; congruence. }
    simpl in Hget. rewrite Hget. by eexists. }
  split; by apply Hone.
Qed.
End Selection.

Lemma disabled_key_is_never_returned_sample :
  let keys := [ Sample.aKey "k1" [gemini_pro] 0 0 0;
                Sample.aKey "k2" [gemini_pro] 10 0 0 ] in
  let calls := [ call_get "gemini-pro" 1000 1000;
                 call_markRateLimited "plm-k2" 1200 ] in
  let k := Sample.aKey "k1" [gemini_pro] 0 0 0 in
  ∃ r keys',
    @get Sample.models "gemini-pro" 5000 5000
      (foldl (@after Sample.models) (disable k keys) calls) = Ok (r, keys')
    ∧ hash r = "plm-k2" ∧ hash r ≠ "plm-k1".
Proof.
  intros keys calls k. eexists _, _. split; [vm_compute; reflexivity|].
  split; [reflexivity|].
  refine (@disabled_key_is_never_returned Sample.models (disable k keys)
            calls (set_isDisabled true k) "gemini-pro" 5000 5000 _ _
            _ _ _ _ _).
  - compute_done.
  - repeat constructor.
  - apply elem_of_cons. by left.
  - reflexivity.
  - vm_compute. reflexivity.
Defined.

Lemma no_key_available_no_key_returned_sample :
  let keys := disable (Sample.aKey "k1" [] 0 0 0)
                      [ Sample.aKey "k1" [gemini_pro] 0 0 0 ] in
  available keys = 0
  ∧ @get Sample.models "gemini-pro" 5000 5000 keys
    = Throw (PaymentRequiredError "No Google AI keys available").
Proof.
  intros keys. split; [reflexivity|].
  exact (@no_key_available_no_key_returned Sample.models keys "gemini-pro"
           5000 5000 eq_refl).
Defined.

Lemma get_succeeds_whatever_the_time_sample :
  let keys := [ Sample.aKey "k1" [gemini_pro] 0 0 0;
                Sample.aKey "k2" [gemini_flash] 10 0 0 ] in
  let calls := [ call_get "gemini-pro" 1000 1000;
                 call_markRateLimited "plm-k1" 1200;
                 call_incrementUsage "plm-k1" "gemini-pro" 7 ] in
  Forall Kinds.keepsEligibility calls
  ∧ (Kinds.returnsKey (@get Sample.models "gemini-pro" 1300 1300
                         (foldl (@after Sample.models) keys calls))
     ↔ Kinds.returnsKey (@get Sample.models "gemini-pro" 0 0 keys)).
Proof.
  intros keys calls.
  assert (Forall Kinds.keepsEligibility calls) as Hcalls
    by (repeat constructor).
  split; [exact Hcalls|].
  exact (proj2 (proj2 (@get_succeeds_whatever_the_time Sample.models keys
                         calls "gemini-pro" 1300 1300 0 0 Hcalls))).
Defined.

(** *** The lockout period over time *)

Lemma some_not_rate_limited (now : Z) (l : keys_t) :
  (length (filter (λ k, (now < rateLimitedUntil k)%Z) l) < length l)%nat
  ↔ ∃ k, k ∈ l ∧ rateLimitedUntil k <= now.
Proof.
  split.
  - intros Hlt.
    destruct (decide (Forall (λ k, now < rateLimitedUntil k) l))
      as [Hall|Hnot].
    + rewrite length_filter_all in Hlt; [lia|]. by apply Forall_forall.
    + apply not_Forall_Exists, Exists_exists in Hnot as (k & Hk & Hu);
        [|apply _].
      simpl in Hu. exists k. split; [done|lia].
  - intros (k & Hk & Hu). eapply length_filter_lt; [done|]. simpl. lia.
Qed.

Lemma foldr_min_shift (d x0 : Z) (xs : list Z) :
  foldr Z.min (x0 - d) ((λ x, x - d) <$> xs) = foldr Z.min x0 xs - d.
Proof.
  induction xs as [|x xs IH]; [done|].
  rewrite fmap_cons. cbn [foldr]. rewrite IH. lia.
Qed.

(** The value of [getLockoutPeriod] once the active keys are known. *)
Lemma getLockoutPeriod_active now keys k0 rest :
  filter (λ k, isDisabled k = false) keys = k0 :: rest →
  let waits := (λ k, rateLimitedUntil k - now) <$> rest in
  ((∃ k, k ∈ k0 :: rest ∧ rateLimitedUntil k <= now)
   ∧ getLockoutPeriod now keys = 0)
  ∨ ((∀ k, k ∈ k0 :: rest → now < rateLimitedUntil k)
     ∧ getLockoutPeriod now keys
       = foldr Z.min (rateLimitedUntil k0 - now) waits).
Proof.
  intros Hactive waits. unfold getLockoutPeriod. rewrite Hactive.
  case_bool_decide as Hany.
  - left. split; [|done]. by apply some_not_rate_limited.
  - right. split; [|done]. intros k Hk.
    destruct (decide (now < rateLimitedUntil k)) as [|Hu]; [done|].
    destruct Hany. apply some_not_rate_limited. exists k. split; [done|lia].
Qed.

(** The period is at most the wait of any key that is not disabled. *)
Lemma period_at_most_the_wait now keys k :
  k ∈ keys → isDisabled k = false →
  getLockoutPeriod now keys <= 0 `max` (rateLimitedUntil k - now).
Proof.
  intros Hk Hd.
  destruct (filter (λ k, isDisabled k = false) keys) as [|k0 rest] eqn:Hactive.
  { unfold getLockoutPeriod. rewrite Hactive. lia. }
  assert (k ∈ k0 :: rest) as Hin
    by (rewrite <-Hactive; by apply list_elem_of_filter).
  destruct (getLockoutPeriod_active now keys k0 rest Hactive)
    as [[_ ->]|[_ ->]]; [lia|].
  destruct (foldr_min_least (rateLimitedUntil k0 - now)
              ((λ k, rateLimitedUntil k - now) <$> rest)) as [_ Hle].
  etrans; [apply Hle|apply Z.le_max_r].
  change (rateLimitedUntil k - now
          ∈ (λ k, rateLimitedUntil k - now) <$> (k0 :: rest)).
  apply list_elem_of_fmap. eauto.
Qed.

(** X7.  The lockout period is a countdown to the release of the first active
    key: it is never negative, never more than the wait of any key that
    is not disabled, and [d] milliseconds later, for [d] up to the
    period, it is the period less [d]; once the period has passed it is
    0. *)
Theorem lockout_period_counts_down now keys :
  let period := getLockoutPeriod now keys in
  0 <= period
  ∧ (∀ k, k ∈ keys → isDisabled k = false →
          period <= 0 `max` (rateLimitedUntil k - now))
  ∧ (∀ d, 0 <= d <= period → getLockoutPeriod (now + d) keys = period - d).
Proof.
  intros period. unfold period.
  destruct (filter (λ k, isDisabled k = false) keys) as [|k0 rest] eqn:Hactive.
  { assert (∀ t, getLockoutPeriod t keys = 0) as Hzero
      by (intros t; unfold getLockoutPeriod; by rewrite Hactive).
    rewrite !Hzero. split_and!; [done|lia|].
    intros d Hd. rewrite Hzero. lia. }
  assert (∀ k, k ∈ keys → isDisabled k = false → k ∈ k0 :: rest) as Hin.
  { intros k Hk Hd. rewrite <-Hactive. by apply list_elem_of_filter. }
  destruct (getLockoutPeriod_active now keys k0 rest Hactive)
    as [[_ Hp]|[Hall Hp]]; rewrite !Hp.
  { split_and!; [done|lia|]. intros d Hd. assert (d = 0) as -> by lia.
    by rewrite Z.add_0_r, Hp. }
  destruct (foldr_min_least (rateLimitedUntil k0 - now)
              ((λ k, rateLimitedUntil k - now) <$> rest)) as [Hmin Hle].
  change (foldr Z.min (rateLimitedUntil k0 - now)
            ((λ k, rateLimitedUntil k - now) <$> rest)
          ∈ (λ k, rateLimitedUntil k - now) <$> (k0 :: rest)) in Hmin.
  apply list_elem_of_fmap in Hmin as (kmin & Hmin & Hkmin).
  assert (∀ k, k ∈ k0 :: rest →
               foldr Z.min (rateLimitedUntil k0 - now)
                 ((λ k, rateLimitedUntil k - now) <$> rest)
               <= rateLimitedUntil k - now) as Hleast.
  { intros k Hk. apply Hle.
    change (rateLimitedUntil k - now
            ∈ (λ k, rateLimitedUntil k - now) <$> (k0 :: rest)).
    apply list_elem_of_fmap. eauto. }
  split_and!.
  - rewrite Hmin. specialize (Hall kmin Hkmin). lia.
  - intros k Hk Hd. specialize (Hleast k (Hin k Hk Hd)). lia.
  - intros d Hd.
    destruct (getLockoutPeriod_active (now + d) keys k0 rest Hactive)
      as [[(k & Hk & Hu) ->]|[Hall' ->]].
    + specialize (Hleast k Hk). lia.
    + replace ((λ k, rateLimitedUntil k - (now + d)) <$> rest)
        with ((λ x, x - d) <$> ((λ k, rateLimitedUntil k - now) <$> rest)).
      * replace (rateLimitedUntil k0 - (now + d))
          with (rateLimitedUntil k0 - now - d) by lia.
        apply foldr_min_shift.
      * rewrite <-list_fmap_compose. apply list_fmap_ext.
        intros ? k _. simpl. lia.
Qed.

(** X8.  After a 429 on a key that is not disabled the wait is at most the
    lockout of 2000 ms, and exactly that when it is the only key left
    enabled. *)
Theorem rate_limit_mark_sets_the_wait keyHash now keys j kj :
  find_hash keyHash keys = Some (j, kj) →
  isDisabled kj = false →
  ∃ keys',
    markRateLimited keyHash now keys = Ok keys'
    ∧ getLockoutPeriod now keys' <= RATE_LIMIT_LOCKOUT
    ∧ (available keys = 1 → getLockoutPeriod now keys' = RATE_LIMIT_LOCKOUT).
Proof.
  intros Hfind Hd. unfold markRateLimited. rewrite Hfind.
  eexists. split; [done|].
  set (marked := set_rateLimit now (now + RATE_LIMIT_LOCKOUT) kj).
  set (keys' := alter (set_rateLimit now (now + RATE_LIMIT_LOCKOUT)) j keys).
  apply list_find_Some in Hfind as Hj. destruct Hj as (Hj & _ & _).
  assert (keys' !! j = Some marked) as Hmarked.
  { unfold keys'. rewrite (lookup_alter_Some _ _ _ _ _ Hj).
    by rewrite decide_True. }
  split.
  - pose proof (period_at_most_the_wait now keys' marked
                  (list_elem_of_lookup_2 _ _ _ Hmarked) Hd) as Hle.
    simpl in Hle. unfold RATE_LIMIT_LOCKOUT in *. lia.
  - unfold available. intros Hone.
    pose proof (length_filter_alter (λ k, isDisabled k = false)
                  (set_rateLimit now (now + RATE_LIMIT_LOCKOUT)) j keys kj Hj)
      as Hlen.
    simpl in Hlen. fold keys' in Hlen.
    assert (length (filter (λ k, isDisabled k = false) keys') = 1%nat)
      as Hlen' by (repeat case_decide; lia).
    destruct (filter (λ k, isDisabled k = false) keys')
      as [|k0 [|k1 rest]] eqn:Hactive; try done.
    assert (marked ∈ [k0]) as Hsame%list_elem_of_singleton.
    { rewrite <-Hactive. apply list_elem_of_filter.
      split; [done|by eapply list_elem_of_lookup_2]. }
    rewrite <-Hsame in Hactive.
    destruct (getLockoutPeriod_active now keys' marked [] Hactive)
      as [[(k & ->%list_elem_of_singleton & Hu) _]|[_ ->]]; simpl in *.
    + unfold RATE_LIMIT_LOCKOUT in *. lia.
    + lia.
Qed.

Lemma rate_limit_mark_sets_the_wait_sample :
  let keys := [ Sample.aKey "k1" [gemini_pro] 0 0 0 ] in
  ∃ keys',
    markRateLimited "plm-k1" 7000 keys = Ok keys'
    ∧ getLockoutPeriod 7000 keys' <= RATE_LIMIT_LOCKOUT
    ∧ (available keys = 1 → getLockoutPeriod 7000 keys' = RATE_LIMIT_LOCKOUT).
Proof.
  intros keys.
  exact (rate_limit_mark_sets_the_wait "plm-k1" 7000 keys 0%nat
           (Sample.aKey "k1" [gemini_pro] 0 0 0) eq_refl eq_refl).
Defined.

Example lockout_period_counting_down :
  let keys := [ Sample.aKey "k1" [gemini_pro] 0 0 1900;
                Sample.aKey "k2" [gemini_pro] 0 0 1500 ] in
  (getLockoutPeriod 1000 keys, getLockoutPeriod 1200 keys,
   getLockoutPeriod 1500 keys, getLockoutPeriod 1600 keys)
  = (500, 300, 0, 0).
Proof. reflexivity. Qed.

(** *** Selection after a rate limit and after a selection *)

Section Failover.
Context `{Models}.

(** With an eligible key that is not locked out in the pool, [get]
    returns a key that was not locked out. *)
Lemma get_avoids_locked_out model now now' keys b :
  b ∈ keys → eligible (getGoogleAIModelFamily model) b →
  ¬ lockedOut now b →
  ∃ i k0 k keys',
    get model now now' keys = Ok (k, keys')
    ∧ keys !! i = Some k0 ∧ hash k = hash k0 ∧ ¬ lockedOut now k0.
Proof.
  intros Hb He Hfree.
  destruct (get_Ok model now now' keys)
    as (i & k0 & j & kj & Hk0 & _ & Hleast & _ & Hget); [by eauto|].
  simpl in Hget. eexists i, k0, _, _. split; [exact Hget|].
  split_and!; [done|by case_decide|].
  specialize (Hleast b Hb He). revert Hleast Hfree.
  unfold compareKeys, lockedOut. repeat case_bool_decide; simpl; lia.
Qed.

(** X9.  Failover.  With unique hashes, once a key has been marked rate
    limited, a [get] made within the lockout of 2000 ms returns another
    key, provided the pool holds an eligible key under another hash that
    is not locked out. *)
Theorem rate_limited_key_is_passed_over
    keys keyHash t keys' b model now now' :
  NoDup (hash <$> keys) →
  markRateLimited keyHash t keys = Ok keys' →
  b ∈ keys → eligible (getGoogleAIModelFamily model) b →
  hash b ≠ keyHash → ¬ lockedOut now b →
  now - t < RATE_LIMIT_LOCKOUT →
  ∃ k keys'',
    get model now now' keys' = Ok (k, keys'') ∧ hash k ≠ keyHash.
Proof.
  intros Hnodup Hmark [ib Hb]%list_elem_of_lookup He Hother Hfree Hsoon.
  unfold markRateLimited in Hmark.
  destruct (find_hash keyHash keys) as [[j kj]|] eqn:Hfind; [|done].
  injection Hmark as <-.
  apply list_find_Some in Hfind as (Hj & Hh & _).
  set (keys' := alter (set_rateLimit t (t + RATE_LIMIT_LOCKOUT)) j keys).
  assert (keys' !! ib = Some b) as Hb'.
  { unfold keys'. rewrite (lookup_alter_Some _ _ _ _ _ Hb).
    rewrite decide_False; [done|]. intros ->. congruence. }
  destruct (get_avoids_locked_out model now now' keys' b)
    as (i & k0 & k & keys'' & Hget & Hk0 & Hhash & Hfree0);
    [by eapply list_elem_of_lookup_2|done..|].
  exists k, keys''. split; [done|]. rewrite Hhash. intros Hsame.
  assert (keys' !! j
          = Some (set_rateLimit t (t + RATE_LIMIT_LOCKOUT) kj)) as Hj'.
  { unfold keys'. rewrite (lookup_alter_Some _ _ _ _ _ Hj).
    by rewrite decide_True. }
  assert (i = j) as ->.
  { eapply (unique_position keys'); [|done..|by rewrite Hsame].
    unfold keys'. by rewrite fmap_alter_same. }
  rewrite Hj' in Hk0. injection Hk0 as <-.
  apply Hfree0. unfold lockedOut. simpl. done.
Qed.

(** X10.  Rotation.  With unique hashes, after [get] has returned a key, a
    [get] made less than 2000 ms after the throttle returns another key,
    provided the pool holds a key under another hash that is eligible for
    the second request and was last rate limited before the throttle. *)
Theorem consecutive_gets_rotate
    keys model now now' k keys' b model2 now2 now2' :
  NoDup (hash <$> keys) →
  get model now now' keys = Ok (k, keys') →
  b ∈ keys → eligible (getGoogleAIModelFamily model2) b →
  hash b ≠ hash k → rateLimitedAt b < now' →
  now2 - now' < RATE_LIMIT_LOCKOUT →
  ∃ k2 keys2,
    get model2 now2 now2' keys' = Ok (k2, keys2) ∧ hash k2 ≠ hash k.
Proof.
  intros Hnodup Hget [ib Hb]%list_elem_of_lookup He Hother Hold Hsoon.
  destruct (get_stored_record model now now' keys k keys' Hnodup Hget)
    as (i & k0 & Hk0 & Hhash & _ & Hk & ->).
  assert (i ≠ ib) as Hne by (intros ->; congruence).
  assert (<[i:=k]> keys !! ib = Some b) as Hb'
    by by rewrite list_lookup_insert_ne.
  assert (<[i:=k]> keys !! i = Some k) as Hi'
    by (apply list_lookup_insert_eq; by eapply lookup_lt_Some).
  assert (NoDup (hash <$> <[i:=k]> keys)) as Hnodup'.
  { rewrite list_fmap_insert, list_insert_id; [done|].
    by rewrite list_lookup_fmap, Hk0, Hhash. }
  destruct (get_Ok model2 now2 now2' (<[i:=k]> keys))
    as (i2 & k02 & j2 & kj2 & Hk02 & _ & Hleast & _ & Hget2).
  { exists b. split; [by eapply list_elem_of_lookup_2|done]. }
  simpl in Hget2. eexists _, _. split; [exact Hget2|].
  intros Hsame.
  assert (hash k02 = hash k) as Hsame'
    by (revert Hsame; by case_decide).
  assert (i2 = i) as -> by by eapply (unique_position (<[i:=k]> keys)).
  rewrite Hi' in Hk02. injection Hk02 as <-.
  specialize (Hleast b (list_elem_of_lookup_2 _ _ _ Hb') He).
  revert Hleast. rewrite Hk. unfold compareKeys. simpl.
  unfold RATE_LIMIT_LOCKOUT in *. repeat case_bool_decide; simpl; lia.
Qed.
End Failover.

Lemma rate_limited_key_is_passed_over_sample :
  let keys := [ Sample.aKey "k1" [gemini_pro] 0 0 0;
                Sample.aKey "k2" [gemini_pro] 900 0 0 ] in
  ∃ keys' k keys'',
    markRateLimited "plm-k1" 5000 keys = Ok keys'
    ∧ @get Sample.models "gemini-pro" 5100 5100 keys' = Ok (k, keys'')
    ∧ hash k ≠ "plm-k1".
Proof.
  intros keys. exists (alter (set_rateLimit 5000 7000) 0%nat keys).
  destruct (@rate_limited_key_is_passed_over Sample.models keys "plm-k1"
              5000 (alter (set_rateLimit 5000 7000) 0%nat keys)
              (Sample.aKey "k2" [gemini_pro] 900 0 0) "gemini-pro"
              5100 5100) as (k & keys'' & Hget & Hk).
  - compute_done.
  - reflexivity.
  - apply elem_of_cons. right. apply elem_of_cons. by left.
  - split; [reflexivity|apply elem_of_cons; by left].
  - discriminate.
  - unfold lockedOut, RATE_LIMIT_LOCKOUT. simpl. lia.
  - unfold RATE_LIMIT_LOCKOUT. lia.
  - exists k, keys''. split; [reflexivity|]. split; [exact Hget|exact Hk].
Defined.

Lemma consecutive_gets_rotate_sample :
  let keys := [ Sample.aKey "k1" [gemini_pro] 0 0 0;
                Sample.aKey "k2" [gemini_pro] 0 0 0 ] in
  ∃ k keys' k2 keys2,
    @get Sample.models "gemini-pro" 5000 5000 keys = Ok (k, keys')
    ∧ @get Sample.models "gemini-pro" 5001 5001 keys' = Ok (k2, keys2)
    ∧ hash k = "plm-k1" ∧ hash k2 ≠ hash k.
Proof.
  intros keys.
  pose (k := set_rateLimit 5000 5500
               (set_lastUsed 5000 (Sample.aKey "k1" [gemini_pro] 0 0 0))).
  pose (keys' := <[0%nat := k]> keys).
  assert (@get Sample.models "gemini-pro" 5000 5000 keys = Ok (k, keys'))
    as Hget by reflexivity.
  destruct (@consecutive_gets_rotate Sample.models keys "gemini-pro"
              5000 5000 k keys' (Sample.aKey "k2" [gemini_pro] 0 0 0)
              "gemini-pro" 5001 5001) as (k2 & keys2 & Hget2 & Hk2);
    [compute_done|exact Hget| | |discriminate| | |].
  - apply elem_of_cons. right. apply elem_of_cons. by left.
  - split; [reflexivity|apply elem_of_cons; by left].
  - simpl. lia.
  - unfold RATE_LIMIT_LOCKOUT. lia.
  - exists k, keys', k2, keys2. split; [exact Hget|]. split; [exact Hget2|].
    split; [reflexivity|exact Hk2].
Defined.

(** *** Ties *)




Section Ties.
Context `{Models}.


End Ties.


(** *** Time stamps along a history *)

Section Timestamps.
Context `{Models} `{Crypto}.
Import Timeline.

Lemma after_never_goes_back t c keys :
  readsFrom t c → updatesAreGoogleAIKeyUpdates c → notAheadOf t keys →
  t <= timeAfter t c
  ∧ length (after keys c) = length keys
  ∧ ∀ p k, keys !! p = Some k →
           ∃ k', after keys c !! p = Some k'
                 ∧ hash k' = hash k
                 ∧ lastUsed k <= lastUsed k'
                 ∧ rateLimitedUntil k <= rateLimitedUntil k'
                 ∧ lastUsed k' <= timeAfter t c
                 ∧ rateLimitedUntil k' <= timeAfter t c + RATE_LIMIT_LOCKOUT.
Proof.
  intros Hreads Hc Hkeys.
  assert (∀ p k, keys !! p = Some k →
                 lastUsed k <= t ∧ rateLimitedUntil k <= t + RATE_LIMIT_LOCKOUT)
    as Hbound.
  { intros p k Hk. by eapply (Forall_lookup_1 _ _ _ _ Hkeys). }
  unfold RATE_LIMIT_LOCKOUT in *.
  destruct c as [model now now'|h now|h patch now|k|h model tokens];
    simpl in *.
  - destruct (eligible_cases (getGoogleAIModelFamily model) keys)
      as [Hnone|Hsome].
    { rewrite (get_Throw model now now' keys Hnone).
      split_and!; [lia|done|]. intros p k Hk. exists k.
      destruct (Hbound p k Hk). split_and!; [done..|lia|lia]. }
    destruct (get_Ok model now now' keys Hsome)
      as (i & k0 & j & kj & _ & _ & _ & Hfind & Hget).
    simpl in Hget. rewrite Hget.
    apply list_find_Some in Hfind as (Hj & _ & _).
    split_and!; [lia|by rewrite !length_alter|].
    intros p k Hk. eexists. split.
    { erewrite lookup_alter_Some; [done|]. by apply lookup_alter_Some. }
    destruct (Hbound p k Hk). destruct (Hbound j kj Hj).
    unfold KEY_REUSE_DELAY.
    repeat case_decide; simplify_eq/=; split_and!; try done; lia.
  - unfold markRateLimited.
    destruct (find_hash h keys) as [[j kj]|].
    2:{ split_and!; [lia|done|]. intros p k Hk. exists k.
        destruct (Hbound p k Hk). split_and!; [done..|lia|lia]. }
    split_and!; [lia|by rewrite !length_alter|].
    intros p k Hk. eexists. split; [by apply lookup_alter_Some|].
    destruct (Hbound p k Hk).
    case_decide; simpl; unfold RATE_LIMIT_LOCKOUT; split_and!;
      try done; lia.
  - unfold update.
    destruct (find_hash h keys) as [[j kj]|].
    2:{ split_and!; [lia|done|]. intros p k Hk. exists k.
        destruct (Hbound p k Hk). split_and!; [done..|lia|lia]. }
    destruct Hc as (_ & Hh & Hu & _ & _ & Hl).
    split_and!; [lia|by rewrite !length_alter|].
    intros p k Hk. eexists. split; [by apply lookup_alter_Some|].
    destruct (Hbound p k Hk).
    case_decide; simpl; rewrite ?Hh, ?Hu, ?Hl; simpl;
      split_and!; try done; lia.
  - unfold disable.
    destruct (find_hash (hash k) keys) as [[j kj]|].
    2:{ split_and!; [lia|done|]. intros p k1 Hk. exists k1.
        destruct (Hbound p k1 Hk). by split_and!. }
    destruct (isDisabled kj).
    { split_and!; [lia|done|]. intros p k1 Hk. exists k1.
      destruct (Hbound p k1 Hk). by split_and!. }
    split_and!; [lia|by rewrite !length_alter|].
    intros p k1 Hk. eexists. split; [by apply lookup_alter_Some|].
    destruct (Hbound p k1 Hk). by case_decide; simpl; split_and!.
  - unfold incrementUsage.
    destruct (find_hash h keys) as [[j kj]|].
    2:{ split_and!; [lia|done|]. intros p k Hk. exists k.
        destruct (Hbound p k Hk). by split_and!. }
    split_and!; [lia|by rewrite !length_alter|].
    intros p k Hk. eexists. split; [by apply lookup_alter_Some|].
    destruct (Hbound p k Hk). by case_decide; simpl; split_and!.
Qed.

Lemma after_notAheadOf t c keys :
  readsFrom t c → updatesAreGoogleAIKeyUpdates c → notAheadOf t keys →
  notAheadOf (timeAfter t c) (after keys c).
Proof.
  intros Hreads Hc Hkeys.
  destruct (after_never_goes_back t c keys Hreads Hc Hkeys)
    as (_ & Hlen & Hstep).
  apply Forall_lookup. intros p k' Hk'.
  destruct (keys !! p) as [k|] eqn:Hk.
  - destruct (Hstep p k Hk) as (k'' & Hk'' & _ & _ & _ & ? & ?).
    by simplify_eq.
  - apply lookup_lt_Some in Hk'. apply lookup_ge_None in Hk. lia.
Qed.

Lemma calls_never_go_back t calls keys :
  nonDecreasingFrom t calls →
  Forall updatesAreGoogleAIKeyUpdates calls →
  notAheadOf t keys →
  notAheadOf (timeAfterAll t calls) (foldl after keys calls)
  ∧ ∀ p k, keys !! p = Some k →
           ∃ k', foldl after keys calls !! p = Some k'
                 ∧ hash k' = hash k
                 ∧ lastUsed k <= lastUsed k'
                 ∧ rateLimitedUntil k <= rateLimitedUntil k'.
Proof.
  intros Hclock Hcalls. revert t keys Hclock.
  induction Hcalls as [|c calls Hc _ IH]; intros t keys Hclock Hkeys.
  { split; [done|]. intros p k Hk. exists k. by split_and!. }
  destruct Hclock as [Hreads Hclock]. simpl.
  destruct (IH (timeAfter t c) (after keys c) Hclock) as [Hbound Hlater].
  { by apply after_notAheadOf. }
  split; [done|]. intros p k Hk.
  destruct (after_never_goes_back t c keys Hreads Hc Hkeys)
    as (_ & _ & Hstep).
  destruct (Hstep p k Hk) as (k1 & Hk1 & Hh1 & Hl1 & Hu1 & _).
  destruct (Hlater p k1 Hk1) as (k' & Hk' & Hh' & Hl' & Hu').
  exists k'. split_and!; [done|congruence|lia|lia].
Qed.

Lemma nonDecreasingFrom_app t calls1 calls2 :
  nonDecreasingFrom t (calls1 ++ calls2) →
  nonDecreasingFrom t calls1
  ∧ nonDecreasingFrom (timeAfterAll t calls1) calls2.
Proof.
  revert t. induction calls1 as [|c calls1 IH]; intros t; simpl; [done|].
  intros [Hreads Hrest]. destruct (IH _ Hrest). done.
Qed.

(** X12.  With a clock that never goes back and [GoogleAIKeyUpdate]s for
    updates, the time stamps of a record only move forward: whatever
    calls follow, its [lastUsed] and its [rateLimitedUntil] are at least
    what they were. *)
Theorem time_stamps_never_go_back googleAIKey calls1 calls2 :
  nonDecreasingFrom 0 (calls1 ++ calls2) →
  Forall updatesAreGoogleAIKeyUpdates (calls1 ++ calls2) →
  ∀ p k, run googleAIKey calls1 !! p = Some k →
         ∃ k', run googleAIKey (calls1 ++ calls2) !! p = Some k'
               ∧ hash k' = hash k
               ∧ lastUsed k <= lastUsed k'
               ∧ rateLimitedUntil k <= rateLimitedUntil k'.
Proof.
  intros [Hclock1 Hclock2]%nonDecreasingFrom_app
         [Hcalls1 Hcalls2]%Forall_app.
  unfold run. rewrite foldl_app.
  assert (notAheadOf 0 (constructor googleAIKey)) as Hinit.
  { unfold constructor, notAheadOf.
    destruct (trim <$> googleAIKey) as [[|c keyConfig]|]; [done| |done].
    apply Forall_fmap, Forall_forall. intros secret _. simpl.
    unfold RATE_LIMIT_LOCKOUT. lia. }
  destruct (calls_never_go_back 0 calls1 _ Hclock1 Hcalls1 Hinit)
    as [Hbound _].
  by apply (calls_never_go_back _ calls2 _ Hclock2 Hcalls2 Hbound).
Qed.
End Timestamps.

Lemma time_stamps_never_go_back_sample :
  let calls1 := [ call_get "gemini-pro" 1000 1000;
                  call_markRateLimited "plm-k1" 1200 ] in
  let calls2 := [ call_get "gemini-pro" 1300 1301;
                  call_get "gemini-pro" 4000 4000 ] in
  ∃ k k',
    @run Sample.models Sample.crypto (Some "k1") calls1 !! 0%nat = Some k
    ∧ @run Sample.models Sample.crypto (Some "k1") (calls1 ++ calls2)
        !! 0%nat = Some k'
    ∧ hash k' = hash k
    ∧ lastUsed k <= lastUsed k'
    ∧ rateLimitedUntil k <= rateLimitedUntil k'.
Proof.
  intros calls1 calls2.
  destruct (@run Sample.models Sample.crypto (Some "k1") calls1 !! 0%nat)
    as [k|] eqn:Hk; [|discriminate].
  destruct (@time_stamps_never_go_back Sample.models Sample.crypto
              (Some "k1") calls1 calls2) with (p := 0%nat) (k := k)
    as (k' & Hk' & Hh & Hl & Hu).
  - simpl. lia.
  - repeat constructor.
  - exact Hk.
  - exists k, k'. by split_and!.
Defined.

(** *** Accounting, unknown hashes and the public view *)

Lemma sum_alter (g : GoogleAIKey → Z) (f : GoogleAIKey → GoogleAIKey)
    j (l : keys_t) k :
  l !! j = Some k →
  foldr Z.add 0 (g <$> alter f j l)
  = foldr Z.add 0 (g <$> l) + (g (f k) - g k).
Proof.
  revert j. induction l as [|x l IH]; intros [|j] Hk; simplify_eq/=.
  - lia.
  - change (list_alter f j l) with (alter f j l).
    change (list_fmap _ _ g ?l') with (g <$> l'). rewrite (IH j Hk). lia.
Qed.

Section Accounting.
Context `{Models}.
Import Kinds.

(** X13.  [incrementUsage] charges one prompt and the tokens to the first
    record with the hash, on the counter of the family of the model and
    on no other; the totals of the pool grow by one prompt and by the
    tokens. *)
Theorem incrementUsage_charges_one_key h model tokens keys j kj :
  find_hash h keys = Some (j, kj) →
  ∃ charged,
    incrementUsage h model tokens keys = <[j := charged]> keys
    ∧ promptCount charged = promptCount kj + 1
    ∧ (∀ family,
         familyTokens family charged
         = familyTokens family kj
           + (if decide (family = getGoogleAIModelFamily model)
              then tokens else 0))
    ∧ totalPrompts (incrementUsage h model tokens keys)
      = totalPrompts keys + 1
    ∧ totalTokens (incrementUsage h model tokens keys)
      = totalTokens keys + tokens.
Proof.
  intros Hfind. unfold incrementUsage. rewrite Hfind.
  apply list_find_Some in Hfind as (Hj & _ & _).
  eexists. split_and!.
  - apply list_eq. intros p.
    rewrite list_lookup_alter, list_lookup_insert.
    case_decide; subst.
    + rewrite Hj. apply lookup_lt_Some in Hj.
      rewrite decide_True by done. reflexivity.
    + by rewrite decide_False by (by intros [? ?]).
  - done.
  - intros family. simpl.
    destruct family, (getGoogleAIModelFamily model); simpl; lia.
  - unfold totalPrompts. rewrite (sum_alter _ _ _ _ _ Hj). simpl. lia.
  - unfold totalTokens. rewrite (sum_alter _ _ _ _ _ Hj). simpl.
    destruct (getGoogleAIModelFamily model); simpl; lia.
Qed.

(** X14.  A hash the provider does not hold: [markRateLimited] and [update]
    throw a [TypeError], while [disable] and [incrementUsage] do nothing. *)
Theorem unknown_hash_throws_or_does_nothing h keys :
  (∀ k, k ∈ keys → hash k ≠ h) →
  (∀ now, ∃ message, markRateLimited h now keys = Throw (TypeError message))
  ∧ (∀ patch now, ∃ message,
       update h patch now keys = Throw (TypeError message))
  ∧ (∀ k, hash k = h → disable k keys = keys)
  ∧ (∀ model tokens, incrementUsage h model tokens keys = keys).
Proof.
  intros Hunknown.
  assert (find_hash h keys = None) as Hfind.
  { apply list_find_None, Forall_forall. intros k Hk. by apply Hunknown. }
  unfold markRateLimited, update, disable, incrementUsage.
  split_and!.
  - intros now. rewrite Hfind. by eexists.
  - intros patch now. rewrite Hfind. by eexists.
  - intros k ->. by rewrite Hfind.
  - intros model tokens. by rewrite Hfind.
Qed.
End Accounting.

Lemma incrementUsage_charges_one_key_sample :
  let keys := [ Sample.aKey "k1" [gemini_pro] 0 0 0;
                Sample.aKey "k2" [gemini_pro] 0 0 0 ] in
  Kinds.totalPrompts
    (@incrementUsage Sample.models "plm-k2" "gemini-flash-1" 40 keys) = 1
  ∧ Kinds.totalTokens
      (@incrementUsage Sample.models "plm-k2" "gemini-flash-1" 40 keys) = 40.
Proof.
  intros keys.
  destruct (@incrementUsage_charges_one_key Sample.models "plm-k2"
              "gemini-flash-1" 40 keys 1%nat
              (Sample.aKey "k2" [gemini_pro] 0 0 0) eq_refl)
    as (charged & _ & _ & _ & Hp & Ht).
  split; [exact Hp|exact Ht].
Defined.

Lemma unknown_hash_throws_or_does_nothing_sample :
  let keys := [ Sample.aKey "k1" [gemini_pro] 0 0 0 ] in
  (∃ message, markRateLimited "plm-gone" 1000 keys = Throw (TypeError message))
  ∧ @incrementUsage Sample.models "plm-gone" "gemini-pro" 5 keys = keys.
Proof.
  intros keys.
  destruct (@unknown_hash_throws_or_does_nothing Sample.models "plm-gone"
              keys) as (Hm & _ & _ & Hi).
  - intros k ->%list_elem_of_singleton. discriminate.
  - split; [exact (Hm 1000)|exact (Hi "gemini-pro" 5)].
Defined.


End GoogleAIKeyProviderMore.

(** ** More on the Anthropic router *)

Module AnthropicProxyMore.
Import AnthropicProxy Stated Shapes AnthropicProxyFacts.

Lemma append_empty (s : string) : s +:+ "" = s.
Proof.
  induction s as [|c s IH]; [done|].
  change (String c (s +:+ "") = String c s). by rewrite IH.
Qed.

Lemma mapM_content_parts (parts : list (string * string)) :
  mapM (λ part,
          ty ← getProp part "type";
          if is_string "text" ty then getProp part "text"
          else Ok (VString ""))
       ((λ p, contentPart p.1 p.2) <$> parts)
  = Ok ((λ p, VString (if bool_decide (p.1 = "text") then p.2 else ""))
          <$> parts).
Proof.
  induction parts as [|[ty text] parts IH]; [done|].
  rewrite fmap_cons. cbn [mapM]. rewrite IH. simpl.
  by case_bool_decide.
Qed.

Lemma join_texts (parts : list (string * string)) :
  join "" ((λ p, VString (if bool_decide (p.1 = "text") then p.2 else ""))
             <$> parts)
  = textOf parts.
Proof.
  induction parts as [|[ty text] parts IH]; [done|].
  rewrite fmap_cons. cbn [join textOf]. rewrite <-IH. simpl.
  destruct parts as [|p parts]; [|done].
  simpl. by rewrite append_empty.
Qed.

(** X16.  A chat response whose [content] is an array of [{ type, text }] parts
    becomes a text completion whose [completion] is the texts of the
    parts of type "text", in order and run together, parts of any other
    type leaving no trace; [stop_sequence] is carried as [stop], and
    [stop_reason], [model] and [usage] as they are. *)
Theorem chat_response_becomes_text_completion anthropicBody req parts :
  lookup_prop "content" anthropicBody
  = VArray ((λ p, contentPart p.1 p.2) <$> parts) →
  ∃ out,
    transformAnthropicChatResponseToAnthropicText anthropicBody req = Ok out
    ∧ lookup_prop "type" out = VString "completion"
    ∧ lookup_prop "completion" out = VString (textOf parts)
    ∧ lookup_prop "id" out
      = VString ("trans-" +:+ toString (lookup_prop "id" anthropicBody))
    ∧ lookup_prop "stop" out = lookup_prop "stop_sequence" anthropicBody
    ∧ lookup_prop "stop_reason" out = lookup_prop "stop_reason" anthropicBody
    ∧ lookup_prop "model" out = lookup_prop "model" anthropicBody
    ∧ lookup_prop "usage" out = lookup_prop "usage" anthropicBody.
Proof.
  intros Hcontent. unfold transformAnthropicChatResponseToAnthropicText.
  rewrite Hcontent, mapM_content_parts. simpl. rewrite join_texts.
  eexists. split; [reflexivity|]. by split_and!.
Qed.

Lemma chat_response_becomes_text_completion_sample :
  let anthropicBody :=
    [ ("id", VString "msg_1");
      ("content", VArray [ contentPart "text" "Hello";
                           contentPart "tool_use" "ignored";
                           contentPart "text" ", world" ]);
      ("stop_reason", VString "end_turn") ] in
  ∃ out,
    transformAnthropicChatResponseToAnthropicText anthropicBody
      (Sample.request "/v1/complete" []) = Ok out
    ∧ lookup_prop "completion" out = VString "Hello, world"
    ∧ lookup_prop "id" out = VString "trans-msg_1".
Proof.
  intros anthropicBody.
  destruct (chat_response_becomes_text_completion anthropicBody
              (Sample.request "/v1/complete" [])
              [ ("text", "Hello"); ("tool_use", "ignored");
                ("text", ", world") ] eq_refl)
    as (out & Hout & _ & Hcompletion & Hid & _).
  exists out. split; [exact Hout|]. split; [exact Hcompletion|exact Hid].
Defined.

(** A response whose [content] is missing or is not an array makes the
    transformation throw a [TypeError]. *)
Theorem chat_response_without_parts_throws anthropicBody req :
  isArray (lookup_prop "content" anthropicBody) = false →
  ∃ message,
    transformAnthropicChatResponseToAnthropicText anthropicBody req
    = Throw (TypeError message).
Proof.
  intros Hcontent. unfold transformAnthropicChatResponseToAnthropicText.
  destruct (lookup_prop "content" anthropicBody); try done; by eexists.
Qed.

Lemma chat_response_without_parts_throws_sample :
  ∃ message,
    transformAnthropicChatResponseToAnthropicText
      [ ("completion", VString " Hi") ] (Sample.request "/v1/complete" [])
    = Throw (TypeError message).
Proof.
  exact (chat_response_without_parts_throws
           [ ("completion", VString " Hi") ]
           (Sample.request "/v1/complete" []) eq_refl).
Defined.

(** X17.  A response that needs no translation (the client does not speak the
    openai dialect, and the request was not upgraded from text to chat) is
    sent with status 200 as it came, but for the note on prompt logging
    and the tokenizer information the proxy may add; with logging off and
    no tokenizer information it is the upstream body itself. *)
Theorem native_response_passes_through config req upstream now :
  inboundApi req ≠ Some api_openai →
  ¬ (inboundApi req = Some api_anthropic_text
     ∧ outboundApi req = Some api_anthropic_chat) →
  ∃ response,
    anthropicResponseHandler config req (BodyObject upstream) now
    = Ok response
    ∧ status response = 200
    ∧ (∀ name, name ≠ "proxy_note" → name ≠ "proxy_tokenizer" →
               lookup_prop name (json response) = lookup_prop name upstream)
    ∧ (promptLogging config = false → truthy (tokenizerInfo req) = false →
       json response = upstream).
Proof.
  intros Hin Hup. unfold anthropicResponseHandler.
  rewrite decide_False by done. simpl.
  rewrite decide_False by done. simpl.
  eexists. split; [reflexivity|]. simpl. split_and!; [done| |].
  - intros name Hnote Htok.
    destruct (truthy (tokenizerInfo req)), (promptLogging config);
      by rewrite ?lookup_prop_assign_ne.
  - by intros -> ->.
Qed.

Lemma native_response_passes_through_sample :
  let req := mkRequest "/v1/messages" [] (Some api_anthropic_chat)
               (Some api_anthropic_chat) (Some anthropic) (Some 9) None
               VUndefined None in
  let upstream := [ ("id", VString "msg_1"); ("content", VArray []) ] in
  ∃ response,
    anthropicResponseHandler {| promptLogging := false; anthropicKey := None |}
      req (BodyObject upstream) 1700000000000 = Ok response
    ∧ status response = 200 ∧ json response = upstream.
Proof.
  intros req upstream.
  destruct (native_response_passes_through
              {| promptLogging := false; anthropicKey := None |}
              req upstream 1700000000000) as (response & Hr & Hs & _ & Hj);
    [discriminate|by intros [? _]|].
  exists response. split; [exact Hr|]. split; [exact Hs|].
  exact (Hj eq_refl eq_refl).
Defined.


Section Routes.
Context `{Dialects}.

Local Ltac forwarded Hurl :=
  simpl; intros [= <-]; unfold anthropicProxy, pathFilter; simpl;
  rewrite Hurl; simpl; split_and!; [done..|]; by eexists.

(** X18.  Every [POST] route of the router hands the proxy a request that
    carries the inbound dialect of the route and the anthropic service,
    and forwards it to the endpoint of its outbound dialect:
    [/v1/messages] for anthropic-chat, [/v1/complete] for
    anthropic-text. *)
Theorem routes_forward_to_the_endpoint_of_the_dialect r req req' :
  url req = pathOf r →
  handlerOf r req = Ok req' →
  inboundApi req' = Some (inboundOf r)
  ∧ service req' = Some anthropic
  ∧ ∃ outApi, outboundApi req' = Some outApi ∧ url req' = endpointOf outApi.
Proof.
  intros Hurl. destruct r; simpl in *.
  - unfold post_v1_complete, claudeTextCompletionRouter,
      textToChatPreprocessor, nativeTextPreprocessor,
      createPreprocessorMiddleware, runAll.
    destruct (lookup_prop "model" (body req)) as [| | | |model| |];
      try done; simpl;
      try destruct (startsWith model "claude-3");
      (destruct (transformOutboundPayload _ _ (body req)); [|done]);
      forwarded Hurl.
  - unfold post_v1_messages, createPreprocessorMiddleware, runAll. simpl.
    destruct (transformOutboundPayload _ _ (body req)); [|done].
    forwarded Hurl.
  - unfold post_v1_chat_completions, createPreprocessorMiddleware, runAll.
    simpl.
    destruct (transformOutboundPayload _ _ (body req)) as [translated|];
      [|done].
    simpl. unfold maybeReassignModel. simpl.
    destruct (lookup_prop "model" translated) as [| | | |model| |];
      try done.
    destruct (startsWith model "gpt-"); forwarded Hurl.
  - unfold post_v1_claude_3_complete, createPreprocessorMiddleware, runAll.
    simpl.
    destruct (transformOutboundPayload _ _ _); [|done].
    forwarded Hurl.
Qed.


(** X20.  The openai-compatible route never forwards a model that starts with
    "gpt-": a request it lets through has a model that is a string and
    does not start with "gpt-". *)
Theorem chat_completions_never_forwards_gpt req req' :
  post_v1_chat_completions req = Ok req' →
  ∃ model, lookup_prop "model" (body req') = VString model
           ∧ startsWith model "gpt-" = false.
Proof.
  unfold post_v1_chat_completions, createPreprocessorMiddleware, runAll.
  simpl.
  destruct (transformOutboundPayload _ _ (body req)) as [translated|];
    [|done].
  simpl. unfold maybeReassignModel. simpl.
  destruct (lookup_prop "model" translated) as [| | | |model| |] eqn:Hmodel;
    try done.
  destruct (startsWith model "gpt-") eqn:Hgpt; simpl; intros [= <-];
    rewrite (proj1 (anthropicProxy_keeps _)); simpl.
  - exists "claude-2.1". by rewrite lookup_prop_assign_eq.
  - by exists model.
Qed.

(** X21.  A text completion for a claude-3 model, from the request to the
    response: the request is forwarded to [/v1/messages], and the chat
    response that comes back is sent to the client as a text completion
    of type "completion" whose [completion] is the text of its parts. *)
Theorem claude_3_text_completion_end_to_end
    config req model translated upstream parts now :
  url req = "/v1/complete" →
  lookup_prop "model" (body req) = VString model →
  startsWith model "claude-3" = true →
  transformOutboundPayload api_anthropic_text api_anthropic_chat (body req)
  = Ok translated →
  lookup_prop "content" upstream
  = VArray ((λ p, contentPart p.1 p.2) <$> parts) →
  ∃ req' response,
    post_v1_complete req = Ok req'
    ∧ url req' = "/v1/messages" ∧ body req' = translated
    ∧ anthropicResponseHandler config req' (BodyObject upstream) now
      = Ok response
    ∧ status response = 200
    ∧ lookup_prop "type" (json response) = VString "completion"
    ∧ lookup_prop "completion" (json response) = VString (textOf parts).
Proof.
  intros Hurl Hmodel Hclaude Htranslated Hcontent.
  unfold post_v1_complete, claudeTextCompletionRouter,
    textToChatPreprocessor, createPreprocessorMiddleware, runAll.
  rewrite Hmodel, Hclaude. simpl. rewrite Htranslated. simpl.
  eexists _, _. split; [reflexivity|].
  unfold anthropicProxy, pathFilter. simpl. rewrite Hurl. simpl.
  split_and!; [done..| | | |].
  - unfold anthropicResponseHandler. simpl.
    unfold transformAnthropicChatResponseToAnthropicText.
    assert (lookup_prop "content"
              (if promptLogging config
               then assign_prop "proxy_note"
                      (VString ("Prompts are logged on this proxy instance. See "
                                  +:+ default "undefined" (host req)
                                  +:+ " for more information.")) upstream
               else upstream)
            = VArray ((λ p, contentPart p.1 p.2) <$> parts)) as ->.
    { destruct (promptLogging config); [|done].
      by rewrite lookup_prop_assign_ne. }
    rewrite mapM_content_parts. simpl. reflexivity.
  - done.
  - by destruct (truthy (tokenizerInfo req)).
  - rewrite join_texts. by destruct (truthy (tokenizerInfo req)).
Qed.
End Routes.

Lemma routes_forward_to_the_endpoint_of_the_dialect_sample :
  let req := Sample.request "/v1/chat/completions"
               [ ("model", VString "claude-2"); ("messages", VArray []) ] in
  ∃ req',
    @handlerOf Sample.dialects route_chat_completions req = Ok req'
    ∧ inboundApi req' = Some api_openai
    ∧ service req' = Some anthropic
    ∧ ∃ outApi, outboundApi req' = Some outApi
                ∧ url req' = endpointOf outApi.
Proof.
  intros req.
  destruct (@handlerOf Sample.dialects route_chat_completions req)
    as [req'|e] eqn:Hreq; [|discriminate].
  exists req'. split; [reflexivity|].
  exact (@routes_forward_to_the_endpoint_of_the_dialect Sample.dialects
           route_chat_completions req req' eq_refl Hreq).
Defined.

Lemma chat_completions_never_forwards_gpt_sample :
  let req := Sample.request "/v1/chat/completions"
               [ ("model", VString "gpt-4-32k"); ("messages", VArray []) ] in
  ∃ req' model,
    @post_v1_chat_completions Sample.dialects req = Ok req'
    ∧ lookup_prop "model" (body req') = VString model
    ∧ startsWith model "gpt-" = false.
Proof.
  intros req.
  destruct (@post_v1_chat_completions Sample.dialects req)
    as [req'|e] eqn:Hreq; [|discriminate].
  destruct (@chat_completions_never_forwards_gpt Sample.dialects req req'
              Hreq) as (model & Hmodel & Hgpt).
  exists req', model. split; [reflexivity|]. split; [exact Hmodel|exact Hgpt].
Defined.

Lemma claude_3_text_completion_end_to_end_sample :
  let req := Sample.request "/v1/complete"
               [ ("model", VString "claude-3-opus-20240229");
                 ("prompt", VString "Human: hi Assistant:") ] in
  let upstream := [ ("id", VString "msg_1");
                    ("content", VArray [ contentPart "text" "Hi";
                                         contentPart "text" " there" ]) ] in
  ∃ req' response,
    @post_v1_complete Sample.dialects req = Ok req'
    ∧ url req' = "/v1/messages" ∧ body req' = body req
    ∧ anthropicResponseHandler
        {| promptLogging := true; anthropicKey := None |}
        req' (BodyObject upstream) 1700000000000 = Ok response
    ∧ status response = 200
    ∧ lookup_prop "type" (json response) = VString "completion"
    ∧ lookup_prop "completion" (json response) = VString "Hi there".
Proof.
  intros req upstream.
  exact (@claude_3_text_completion_end_to_end Sample.dialects
           {| promptLogging := true; anthropicKey := None |}
           req "claude-3-opus-20240229" (body req) upstream
           [ ("text", "Hi"); ("text", " there") ] 1700000000000
           eq_refl eq_refl eq_refl eq_refl eq_refl).
Defined.

End AnthropicProxyMore.

(** ** The model listing *)

Module AnthropicModelsFacts.
Import AnthropicModels.

(** X22.  The listing is built at most once a minute.  When an Anthropic key is
    configured and the cache is a minute old or older, the response lists
    the sixteen Claude variants in order, each owned by "anthropic" and
    stamped with its own reading of the clock, and is kept; any call made
    less than a minute after the time kept with it returns that very
    response and leaves the cache alone. *)
Theorem models_listing_is_cached_for_a_minute
    config now createdAt storedAt st now2 createdAt2 storedAt2 :
  noAnthropicKey config = false →
  60000 <= now - modelsCacheTime st →
  now2 - storedAt < 60000 →
  let response :=
    VObject [ ("object", VString "list");
              ("data", VArray (imap (λ i id, modelEntry (createdAt i) id)
                                    claudeVariants)) ] in
  let st' := {| modelsCache := response; modelsCacheTime := storedAt |} in
  getModelsResponse config now createdAt storedAt st = (response, st')
  ∧ length claudeVariants = 16%nat
  ∧ getModelsResponse config now2 createdAt2 storedAt2 st' = (response, st')
  ∧ handleModelRequest config now2 createdAt2 storedAt2 st'
    = ((200, response), st').
Proof.
  intros Hkey Hstale Hfresh response st'.
  assert (getModelsResponse config now2 createdAt2 storedAt2 st'
          = (response, st')) as Hcached.
  { unfold getModelsResponse. simpl. by rewrite bool_decide_eq_true_2. }
  split_and!; [|done|done|].
  - unfold getModelsResponse.
    rewrite bool_decide_eq_false_2 by lia. by rewrite Hkey.
  - unfold handleModelRequest. by rewrite Hcached.
Qed.

Lemma models_listing_is_cached_for_a_minute_sample :
  let config := {| promptLogging := false; anthropicKey := Some "sk-ant" |} in
  let first := getModelsResponse config 1700000000000 (λ i, 1700000000000)
                 1700000000001 initialModelsCache in
  getModelsResponse config 1700000059999 (λ i, 1700000059999) 1700000060000
    first.2 = first.
Proof.
  intros config first.
  destruct (models_listing_is_cached_for_a_minute config 1700000000000
              (λ i, 1700000000000) 1700000000001 initialModelsCache
              1700000059999 (λ i, 1700000059999) 1700000060000)
    as (Hfirst & _ & Hsecond & _); [reflexivity|simpl; lia|lia|].
  unfold first. rewrite Hfirst. exact Hsecond.
Defined.

(** Without an Anthropic key the listing is empty and nothing is kept,
    once the minute of the cache is over; within that minute the cache is
    served, whatever it holds and whether or not a key is configured. *)
Theorem models_listing_without_key config now createdAt storedAt st :
  (noAnthropicKey config = true → 60000 <= now - modelsCacheTime st →
   getModelsResponse config now createdAt storedAt st
   = (VObject [ ("object", VString "list"); ("data", VArray []) ], st))
  ∧ (now - modelsCacheTime st < 60000 →
     getModelsResponse config now createdAt storedAt st
     = (modelsCache st, st)).
Proof.
  unfold getModelsResponse. split.
  - intros -> Hstale. by rewrite bool_decide_eq_false_2 by lia.
  - intros Hfresh. by rewrite bool_decide_eq_true_2.
Qed.

End AnthropicModelsFacts.

(** ** More on the streaming transformer *)

Module OpenAITextToOpenAIChatMore.
Import OpenAITextToOpenAIChat Stated OpenAITextToOpenAIChatFacts.

Section WithImports.
Context `{SSEImports}.

(** X23.  A text-completion event becomes a chat chunk with the same [id],
    [created] and [model], the object "chat.completion.chunk", and one
    choice: the [index] and the [finish_reason] of the first choice of the
    event, with its [text] as the [content] of the delta.  The other
    choices of the event are dropped. *)
Theorem completion_event_becomes_chat_chunk data_ d props first rest :
  data (parseEvent data_) = Some d →
  d ≠ "" → d ≠ "[DONE]" →
  JSON_parse d = Ok (VObject props) →
  lookup_prop "choices" props = VArray (VObject first :: rest) →
  truthy (lookup_prop "text" first) = true →
  openAITextToOpenAIChat data_
  = Ok {| position := -1;
          event := Some (VObject
            [ ("id", lookup_prop "id" props);
              ("object", VString "chat.completion.chunk");
              ("created", lookup_prop "created" props);
              ("model", lookup_prop "model" props);
              ("choices", VArray
                 [ VObject
                     [ ("index", lookup_prop "index" first);
                       ("delta", VObject
                          [ ("content", lookup_prop "text" first) ]);
                       ("finish_reason",
                        lookup_prop "finish_reason" first) ] ]) ]) |}.
Proof.
  intros Hd Hempty Hdone Hparse Hchoices Htext.
  unfold openAITextToOpenAIChat. rewrite Hd.
  rewrite !bool_decide_eq_false_2 by done. simpl.
  unfold asCompletionEvent, try_catch. rewrite Hparse. simpl.
  rewrite Hchoices. simpl. rewrite Htext. simpl.
  unfold choices0. simpl. rewrite Hchoices. simpl. reflexivity.
Qed.

(** X24.  An event whose first choice has an empty [text] is skipped, whatever
    else it carries: the closing chunk of a stream, with its
    [finish_reason], is not passed on. *)
Theorem chunk_with_empty_text_is_skipped data_ d props first rest :
  data (parseEvent data_) = Some d →
  JSON_parse d = Ok (VObject props) →
  lookup_prop "choices" props = VArray (VObject first :: rest) →
  lookup_prop "text" first = VString "" →
  openAITextToOpenAIChat data_ = Ok {| position := -1; event := None |}.
Proof.
  intros Hd Hparse Hchoices Htext.
  unfold openAITextToOpenAIChat. rewrite Hd.
  destruct (bool_decide (d = "") || bool_decide (d = "[DONE]")); [done|].
  unfold asCompletionEvent, try_catch. rewrite Hparse. simpl.
  rewrite Hchoices. simpl. rewrite Htext. simpl. reflexivity.
Qed.
End WithImports.

Lemma completion_event_becomes_chat_chunk_sample :
  ∃ chunk,
    @openAITextToOpenAIChat SampleEvents.twoChunks "chunk"
    = Ok {| position := -1; event := Some chunk |}
    ∧ (getProp chunk "choices" ≫= λ c, getIndex c 0
         ≫= λ c, getProp c "delta" ≫= λ d, getProp d "content")
      = Ok (VString "Hel").
Proof.
  eexists. split.
  - exact (@completion_event_becomes_chat_chunk SampleEvents.twoChunks
             "chunk" "chunk" _ _ [] eq_refl ltac:(discriminate)
             ltac:(discriminate) eq_refl eq_refl eq_refl).
  - reflexivity.
Defined.

Lemma chunk_with_empty_text_is_skipped_sample :
  @openAITextToOpenAIChat SampleEvents.twoChunks "closing"
  = Ok {| position := -1; event := None |}.
Proof.
  exact (@chunk_with_empty_text_is_skipped SampleEvents.twoChunks
           "closing" "closing" _ _ [] eq_refl eq_refl eq_refl eq_refl).
Defined.

End OpenAITextToOpenAIChatMore.

(** ** More on the key pool *)

Module KeyPoolMore.
Import KeyPool KeyPoolFacts.

Section WithKey.
Context {Key : Type} (openaiSelect anthropicSelect : string → result Key).

End WithKey.

End KeyPoolMore.
